(** * Merkle commitments of [fri/merkle.py]

    A shallow embedding of the class [MerkleTree] (commit_, open_, verify_
    and their public wrappers commit, open, verify) and the properties of
    its specification.

    Python integers are [Z]; [bytes] objects are lists of [Byte.byte];
    Python lists are Rocq lists.  A call either returns, raises, or uses up
    its budget of nested calls, and it reports how many times it invoked
    the hash primitive, so that "before any recursion" and "before any
    hashing" can be stated. *)

From Stdlib Require Import String ZArith List Bool Lia.
From Stdlib Require Import Strings.Byte.
Import ListNotations.

Local Open Scope Z_scope.

(** ** The fragment of the Python runtime the module relies on *)

Module Py.

Definition bytes := list byte.

(** Exceptions the module can raise: a failed [assert] carries its
    message, subscripting outside a sequence raises [IndexError]. *)
Inductive exn : Type :=
| AssertionError (msg : string)
| IndexError.

(** How a call ends.  [OutOfFuel] means the budget of nested calls was
    used up before the call finished: with every budget for a call that
    does not terminate (CPython reports the exhausted stack as a
    RecursionError). *)
Inductive outcome (A : Type) : Type :=
| Ret (a : A)
| Raise (e : exn)
| OutOfFuel.

Arguments Ret {A} a.
Arguments Raise {A} e.
Arguments OutOfFuel {A}.

(** A computation: its outcome and the number of invocations of the hash
    primitive it performed. *)
Definition M (A : Type) : Type := (outcome A * nat)%type.

Definition ret {A} (a : A) : M A := (Ret a, 0%nat).
Definition raise {A} (e : exn) : M A := (Raise e, 0%nat).
Definition out_of_fuel {A} : M A := (OutOfFuel, 0%nat).

Definition bind {A B} (m : M A) (f : A -> M B) : M B :=
  match m with
  | (Ret a, n) => let (r, n') := f a in (r, (n + n')%nat)
  | (Raise e, n) => (Raise e, n)
  | (OutOfFuel, n) => (OutOfFuel, n)
  end.

(** The call finished, by returning or by raising, within its budget. *)
Definition terminates {A} (m : M A) : Prop := fst m <> OutOfFuel.

(** [assert(cond), msg] *)
Definition assert_ (cond : bool) (msg : string) : M unit :=
  if cond then ret tt else raise (AssertionError msg).

(** [len(l)] *)
Definition len {A} (l : list A) : Z := Z.of_nat (length l).

(** [l[i]], negative subscripts counting from the end. *)
Definition getitem {A} (l : list A) (i : Z) : M A :=
  let j := if i <? 0 then i + len l else i in
  if (0 <=? j) && (j <? len l) then
    match nth_error l (Z.to_nat j) with
    | Some x => ret x
    | None => raise IndexError
    end
  else raise IndexError.

(** A slice bound clamped to the sequence, negative bounds counting from
    the end. *)
Definition clamp {A} (l : list A) (h : Z) : nat :=
  Z.to_nat (Z.min (len l) (if h <? 0 then Z.max 0 (h + len l) else h)).

(** [l[:h]] *)
Definition slice_to {A} (l : list A) (h : Z) : list A := firstn (clamp l h) l.

(** [l[h:]] *)
Definition slice_from {A} (l : list A) (h : Z) : list A := skipn (clamp l h) l.

(** [a == b] on two [bytes] objects. *)
Fixpoint bytes_eqb (a b : bytes) : bool :=
  match a, b with
  | [], [] => true
  | x :: a', y :: b' => Byte.eqb x y && bytes_eqb a' b'
  | _, _ => false
  end.

End Py.

Import Py.

Declare Scope py_scope.
Delimit Scope py_scope with py.
Notation "x <- m ;; k" := (bind m (fun x => k))
  (at level 61, m at next level, right associativity) : py_scope.
Notation "m ;; k" := (bind m (fun _ => k))
  (at level 61, right associativity) : py_scope.
Local Open Scope py_scope.

(** ** The class [MerkleTree] *)

Module MerkleTree.

Section Class.

(** [H]: the hash primitive, [blake2b(x).digest()] in the source. *)
Variable H : bytes -> bytes.

(** The data elements and their serialization [bytes(da)]. *)
Context {elem : Type}.
Variable to_bytes : elem -> bytes.

(** One invocation of the hash primitive. *)
Definition hash (x : bytes) : M bytes := (Ret (H x), 1%nat).

(** [len(leafs) & (len(leafs)-1) == 0] *)
Definition power_of_two_guard (n : Z) : bool := Z.land n (n - 1) =? 0.

Fixpoint commit_ (fuel : nat) (leafs : list bytes) : M bytes :=
  match fuel with
  | O => out_of_fuel
  | S fuel =>
      assert_ (power_of_two_guard (len leafs)) "length must be power of two" ;;
      if len leafs =? 1 then
        getitem leafs 0
      else
        l <- commit_ fuel (slice_to leafs (len leafs / 2)) ;;
        r <- commit_ fuel (slice_from leafs (len leafs / 2)) ;;
        hash (l ++ r)
  end.

(** The test [index < (len(leafs)/2)] uses true division: for a length
    that is exactly representable it is [2 * index < len(leafs)], which
    for a single leaf and index 0 holds ([0 < 0.5]). *)
Fixpoint open_ (fuel : nat) (index : Z) (leafs : list bytes) : M (list bytes) :=
  match fuel with
  | O => out_of_fuel
  | S fuel =>
      assert_ (power_of_two_guard (len leafs)) "length must be power of two" ;;
      assert_ ((0 <=? index) && (index <? len leafs)) "cannot open invalid index" ;;
      if len leafs =? 2 then
        x <- getitem leafs (1 - index) ;;
        ret [x]
      else if 2 * index <? len leafs then
        p <- open_ fuel index (slice_to leafs (len leafs / 2)) ;;
        c <- commit_ fuel (slice_from leafs (len leafs / 2)) ;;
        ret (p ++ [c])
      else
        p <- open_ fuel (index - len leafs / 2) (slice_from leafs (len leafs / 2)) ;;
        c <- commit_ fuel (slice_to leafs (len leafs / 2)) ;;
        ret (p ++ [c])
  end.

Fixpoint verify_ (fuel : nat) (root : bytes) (index : Z) (path : list bytes)
         (leaf : bytes) : M bool :=
  match fuel with
  | O => out_of_fuel
  | S fuel =>
      assert_ ((0 <=? index) && (index <? Z.shiftl 1 (len path)))
              "cannot verify invalid index" ;;
      if len path =? 1 then
        if index =? 0 then
          p0 <- getitem path 0 ;;
          d <- hash (leaf ++ p0) ;;
          ret (bytes_eqb root d)
        else
          p0 <- getitem path 0 ;;
          d <- hash (p0 ++ leaf) ;;
          ret (bytes_eqb root d)
      else
        if index mod 2 =? 0 then
          p0 <- getitem path 0 ;;
          d <- hash (leaf ++ p0) ;;
          verify_ fuel root (Z.shiftr index 1) (slice_from path 1) d
        else
          p0 <- getitem path 0 ;;
          d <- hash (p0 ++ leaf) ;;
          verify_ fuel root (Z.shiftr index 1) (slice_from path 1) d
  end.

(** [[MerkleTree.H(bytes(da)).digest() for da in data_array]] *)
Fixpoint leaf_digests (data_array : list elem) : M (list bytes) :=
  match data_array with
  | [] => ret []
  | da :: rest =>
      d <- hash (to_bytes da) ;;
      ds <- leaf_digests rest ;;
      ret (d :: ds)
  end.

Definition commit (fuel : nat) (data_array : list elem) : M bytes :=
  leafs <- leaf_digests data_array ;;
  commit_ fuel leafs.

Definition open (fuel : nat) (index : Z) (data_array : list elem) : M (list bytes) :=
  leafs <- leaf_digests data_array ;;
  open_ fuel index leafs.

Definition verify (fuel : nat) (root : bytes) (index : Z) (path : list bytes)
           (data_element : elem) : M bool :=
  leaf <- hash (to_bytes data_element) ;;
  verify_ fuel root index path leaf.

End Class.

End MerkleTree.

Import MerkleTree.

(** ** The tree the recursion walks, written down as the specification
       describes it *)

Section ReferenceTree.

Variable H : bytes -> bytes.

(** Root of a sequence of [2 ^ k] digests: the digest itself for a single
    one, else the hash of the left root followed by the right root. *)
Fixpoint root_of (k : nat) (l : list bytes) : bytes :=
  match k with
  | O => hd [] l
  | S k' => H (root_of k' (firstn (2 ^ k') l) ++ root_of k' (skipn (2 ^ k') l))
  end.

(** Authentication path of position [i] among [2 ^ k] digests: the path
    inside the half that holds [i], then the root of the other half. *)
Fixpoint path_of (k : nat) (i : Z) (l : list bytes) : list bytes :=
  match k with
  | O => []
  | S k' =>
      if i <? 2 ^ Z.of_nat k' then
        path_of k' i (firstn (2 ^ k') l) ++ [root_of k' (skipn (2 ^ k') l)]
      else
        path_of k' (i - 2 ^ Z.of_nat k') (skipn (2 ^ k') l)
          ++ [root_of k' (firstn (2 ^ k') l)]
  end.

(** One step up from a node: an even position puts the node first, an odd
    one puts the sibling first. *)
Definition parent (index : Z) (node sibling : bytes) : bytes :=
  if Z.even index then H (node ++ sibling) else H (sibling ++ node).

(** Folding a path against a leaf digest from depth 0: combine with the
    head entry by the parity of the index, shift the index right by one
    bit, drop the head entry. *)
Fixpoint climb (index : Z) (path : list bytes) (leaf : bytes) : bytes :=
  match path with
  | [] => leaf
  | p0 :: rest => climb (Z.shiftr index 1) rest (parent index leaf p0)
  end.

End ReferenceTree.

(** The leaf digest of a data element: the hash of its serialization. *)
Definition leaf_of (H : bytes -> bytes) {elem : Type} (to_bytes : elem -> bytes)
           (da : elem) : bytes :=
  H (to_bytes da).

(** The expression [verify(commit(E), i, open(i, E), E[i])] of the
    round-trip property, its arguments evaluated left to right. *)
Definition round_trip (H : bytes -> bytes) {elem : Type} (to_bytes : elem -> bytes)
           (fuel : nat) (E : list elem) (i : Z) : M bool :=
  root <- commit H to_bytes fuel E ;;
  path <- open H to_bytes fuel i E ;;
  e <- getitem E i ;;
  verify H to_bytes fuel root i path e.

(** A collision of the hash primitive: two different inputs with the same
    digest. *)
Definition collision (H : bytes -> bytes) : Prop :=
  exists x y : bytes, x <> y /\ H x = H y.

(** The position next to [q] in its pair: [q ^ 1]. *)
Definition sibling (q : Z) : Z := if Z.even q then q + 1 else q - 1.

(** ** A concrete instance, for evaluating the definitions

    Elements are [bytes] objects, which [bytes(da)] returns unchanged; the
    hash is a stand-in that can be computed by hand.  The four elements are
    those of the specification's concrete scenario. *)

Definition sample_hash (x : bytes) : bytes := rev x.

Definition sample_to_bytes (da : bytes) : bytes := da.

Definition sample_a : bytes := ["a"%byte].
Definition sample_b : bytes := ["b"%byte].
Definition sample_c : bytes := ["c"%byte].
Definition sample_d : bytes := ["d"%byte].

Definition sample_elements : list bytes := [sample_a; sample_b; sample_c; sample_d].

(** ** Outcomes of sequenced computations *)

Section Sequencing.

Context {A B : Type}.

Lemma fst_bind (m : M A) (f : A -> M B) :
  fst (bind m f) =
  match fst m with
  | Ret a => fst (f a)
  | Raise e => Raise e
  | OutOfFuel => OutOfFuel
  end.
Proof.
  destruct m as [[a | e |] n]; simpl; try reflexivity.
  destruct (f a); reflexivity.
Qed.

End Sequencing.

Lemma bind_ret_l {A B} (a : A) (f : A -> M B) : bind (ret a) f = f a.
Proof. unfold bind, ret. destruct (f a); reflexivity. Qed.

Lemma bind_assert_true {B} (msg : string) (f : unit -> M B) :
  bind (assert_ true msg) f = f tt.
Proof. apply bind_ret_l. Qed.

(** ** Lengths that are powers of two *)

Lemma len_pow2 {A} (l : list A) (k : nat) :
  length l = (2 ^ k)%nat -> len l = 2 ^ Z.of_nat k.
Proof. unfold len. intros ->. now rewrite Nat2Z.inj_pow. Qed.

Lemma pow2_pos (k : nat) : 0 < 2 ^ Z.of_nat k.
Proof. apply Z.pow_pos_nonneg; lia. Qed.

Lemma pow2_succ (k : nat) : 2 ^ Z.of_nat (S k) = 2 * 2 ^ Z.of_nat k.
Proof. rewrite Nat2Z.inj_succ, Z.pow_succ_r by lia. reflexivity. Qed.

Lemma guard_pow2 (k : nat) : power_of_two_guard (2 ^ Z.of_nat k) = true.
Proof.
  unfold power_of_two_guard. apply Z.eqb_eq.
  replace (2 ^ Z.of_nat k - 1) with (Z.ones (Z.of_nat k))
    by (rewrite Z.ones_equiv; lia).
  rewrite Z.land_ones by lia.
  apply Z.mod_same. pose proof (pow2_pos k). lia.
Qed.

(** The guard is the usual bit trick: it holds of the powers of two, and of
    zero, and of no other length. *)
Lemma guard_zero : power_of_two_guard 0 = true.
Proof. reflexivity. Qed.

Lemma land_halves (n m : Z) :
  Z.land n m = 0 -> Z.land (n / 2) (m / 2) = 0.
Proof.
  intros Hl.
  assert (Hs : Z.shiftr (Z.land n m) 1 = 0) by now rewrite Hl.
  rewrite Z.shiftr_land, !Z.shiftr_div_pow2 in Hs by lia.
  exact Hs.
Qed.

Lemma guard_sound_pos (p : positive) :
  Z.land (Z.pos p) (Z.pos p - 1) = 0 -> exists k : nat, Z.pos p = 2 ^ Z.of_nat k.
Proof.
  induction p as [q IH | q IH |]; intros Hl.
  - exfalso. apply land_halves in Hl.
    replace (Z.pos q~1 / 2) with (Z.pos q) in Hl
      by (apply Z.div_unique with (r := 1); lia).
    replace ((Z.pos q~1 - 1) / 2) with (Z.pos q) in Hl
      by (apply Z.div_unique with (r := 0); lia).
    rewrite Z.land_diag in Hl. lia.
  - apply land_halves in Hl.
    replace (Z.pos q~0 / 2) with (Z.pos q) in Hl
      by (apply Z.div_unique with (r := 0); lia).
    replace ((Z.pos q~0 - 1) / 2) with (Z.pos q - 1) in Hl
      by (apply Z.div_unique with (r := 1); lia).
    destruct (IH Hl) as [k Hk]. exists (S k).
    rewrite pow2_succ, <- Hk. lia.
  - exists 0%nat. reflexivity.
Qed.

Lemma guard_sound (n : Z) :
  0 < n -> power_of_two_guard n = true -> exists k : nat, n = 2 ^ Z.of_nat k.
Proof.
  unfold power_of_two_guard. intros Hpos Hg. apply Z.eqb_eq in Hg.
  destruct n as [| p | p]; try lia. now apply guard_sound_pos.
Qed.

(** X2. For a length [n >= 0], the guard [n & (n-1) == 0] holds exactly
    when [n] is 0 or a power of two. *)
Lemma guard_spec (n : Z) :
  0 <= n ->
  power_of_two_guard n = true <-> n = 0 \/ exists k : nat, n = 2 ^ Z.of_nat k.
Proof.
  intros Hn. split.
  - intros Hg. destruct (Z.eq_dec n 0) as [-> | Hne]; [now left | right].
    apply guard_sound; [lia | exact Hg].
  - intros [-> | [k ->]]; [reflexivity | apply guard_pow2].
Qed.

(** ** Halving a sequence of length [2 ^ S k] *)

Section Halves.

Context {A : Type}.
Variables (l : list A) (k : nat).
Hypothesis Hlen : length l = (2 ^ S k)%nat.

Lemma len_half : len l / 2 = 2 ^ Z.of_nat k.
Proof.
  rewrite (len_pow2 l (S k) Hlen), pow2_succ, Z.mul_comm.
  apply Z.div_mul. lia.
Qed.

Lemma clamp_half : clamp l (len l / 2) = (2 ^ k)%nat.
Proof.
  unfold clamp. rewrite len_half, (len_pow2 l (S k) Hlen), pow2_succ.
  pose proof (pow2_pos k) as Hp.
  destruct (Z.ltb_spec (2 ^ Z.of_nat k) 0); [lia |].
  rewrite Z.min_r by lia.
  rewrite <- Nat2Z.inj_pow with (n := 2%nat). apply Nat2Z.id.
Qed.

Lemma slice_to_half : slice_to l (len l / 2) = firstn (2 ^ k) l.
Proof. unfold slice_to. now rewrite clamp_half. Qed.

Lemma slice_from_half : slice_from l (len l / 2) = skipn (2 ^ k) l.
Proof. unfold slice_from. now rewrite clamp_half. Qed.

Lemma length_left_half : length (firstn (2 ^ k) l) = (2 ^ k)%nat.
Proof. rewrite length_firstn, Hlen. simpl. lia. Qed.

Lemma length_right_half : length (skipn (2 ^ k) l) = (2 ^ k)%nat.
Proof. rewrite length_skipn, Hlen. simpl. lia. Qed.

Lemma halves_app : l = firstn (2 ^ k) l ++ skipn (2 ^ k) l.
Proof. symmetry. apply firstn_skipn. Qed.

End Halves.

(** ** Facts about the reference tree *)

Section Reference.

Variable H : bytes -> bytes.

Lemma length_path_of (k : nat) : forall i l, length (path_of H k i l) = k.
Proof.
  induction k as [| k IH]; intros i l; simpl; [reflexivity |].
  destruct (i <? 2 ^ Z.of_nat k); rewrite length_app, IH; simpl; lia.
Qed.

Lemma climb_app (p q : list bytes) :
  forall j b leaf,
    0 <= j < 2 ^ len p -> 0 <= b ->
    climb H (j + b * 2 ^ len p) (p ++ q) leaf = climb H b q (climb H j p leaf).
Proof.
  induction p as [| p0 p IH]; intros j b leaf Hj Hb.
  - change (len (@nil bytes)) with 0 in *. rewrite Z.pow_0_r in *.
    simpl. f_equal. lia.
  - assert (Hlen : len (p0 :: p) = Z.succ (len p))
      by (unfold len; simpl length; lia).
    rewrite Hlen in *. rewrite Z.pow_succ_r in * by (unfold len; lia).
    cbn [climb app].
    assert (Hpar : parent H (j + b * (2 * 2 ^ len p)) leaf p0 = parent H j leaf p0).
    { unfold parent.
      replace (j + b * (2 * 2 ^ len p)) with (j + 2 * (b * 2 ^ len p)) by lia.
      now rewrite Z.even_add_mul_2. }
    rewrite Hpar.
    assert (Hsh : Z.shiftr (j + b * (2 * 2 ^ len p)) 1
                  = Z.shiftr j 1 + b * 2 ^ len p).
    { rewrite !Z.shiftr_div_pow2 by lia. change (2 ^ 1) with 2.
      replace (j + b * (2 * 2 ^ len p)) with (j + (b * 2 ^ len p) * 2) by lia.
      apply Z.div_add. lia. }
    rewrite Hsh. apply IH; [| exact Hb].
    rewrite Z.shiftr_div_pow2 by lia. change (2 ^ 1) with 2.
    split; [apply Z.div_pos; lia | apply Z.div_lt_upper_bound; lia].
Qed.

(** Folding the path of position [i] against the digest at position [i]
    rebuilds the root. *)
Lemma climb_path_of (k : nat) :
  forall i l,
    length l = (2 ^ k)%nat -> 0 <= i < 2 ^ Z.of_nat k ->
    climb H i (path_of H k i l) (nth (Z.to_nat i) l []) = root_of H k l.
Proof.
  induction k as [| k IH]; intros i l Hlen Hi.
  - change (2 ^ Z.of_nat 0) with 1 in Hi. replace i with 0 by lia.
    destruct l; reflexivity.
  - rewrite pow2_succ in Hi. pose proof (pow2_pos k) as Hp.
    pose proof (length_left_half l k Hlen) as HL.
    pose proof (length_right_half l k Hlen) as HR.
    assert (Hk : 2 ^ Z.of_nat k = Z.of_nat (2 ^ k))
      by now rewrite Nat2Z.inj_pow.
    cbn [path_of root_of].
    destruct (Z.ltb_spec i (2 ^ Z.of_nat k)) as [Hlt | Hge].
    + set (p := path_of H k i (firstn (2 ^ k) l)).
      assert (Hp_len : len p = Z.of_nat k)
        by (unfold len, p; now rewrite length_path_of).
      replace i with (i + 0 * 2 ^ len p) at 1 by lia.
      rewrite climb_app by (rewrite ?Hp_len; lia).
      cbn [climb]. unfold parent. cbn [Z.even].
      assert (Hn : nth (Z.to_nat i) l [] = nth (Z.to_nat i) (firstn (2 ^ k) l) []).
      { rewrite (halves_app l k) at 1. apply app_nth1. lia. }
      rewrite Hn. unfold p. now rewrite IH by (assumption || lia).
    + set (p := path_of H k (i - 2 ^ Z.of_nat k) (skipn (2 ^ k) l)).
      assert (Hp_len : len p = Z.of_nat k)
        by (unfold len, p; now rewrite length_path_of).
      replace i with ((i - 2 ^ Z.of_nat k) + 1 * 2 ^ len p) at 1
        by (rewrite Hp_len; lia).
      rewrite climb_app by (rewrite ?Hp_len; lia).
      cbn [climb]. unfold parent. cbn [Z.even].
      assert (Hn : nth (Z.to_nat i) l []
                   = nth (Z.to_nat (i - 2 ^ Z.of_nat k)) (skipn (2 ^ k) l) []).
      { rewrite (halves_app l k) at 1. rewrite app_nth2 by lia.
        f_equal. lia. }
      rewrite Hn. unfold p. now rewrite IH by (assumption || lia).
Qed.

End Reference.

(** ** Runtime facts used throughout *)

Lemma len_cons {A} (x : A) (l : list A) : len (x :: l) = Z.succ (len l).
Proof. unfold len. simpl length. lia. Qed.

Lemma len_nonneg {A} (l : list A) : 0 <= len l.
Proof. unfold len. lia. Qed.

Lemma getitem_head {A} (x : A) (l : list A) : getitem (x :: l) 0 = ret x.
Proof.
  unfold getitem. cbn [Z.ltb Z.compare].
  pose proof (len_nonneg l). rewrite len_cons.
  destruct (Z.ltb_spec 0 (Z.succ (len l))); [reflexivity | lia].
Qed.

Lemma getitem_nth_error {A} (l : list A) (i : Z) (x : A) :
  0 <= i -> nth_error l (Z.to_nat i) = Some x -> getitem l i = ret x.
Proof.
  intros Hi Hnth. unfold getitem.
  assert (Hlt : (Z.to_nat i < length l)%nat)
    by (apply nth_error_Some; congruence).
  destruct (Z.ltb_spec i 0); [lia |].
  destruct (Z.leb_spec 0 i); [| lia].
  destruct (Z.ltb_spec i (len l)); [| unfold len in *; lia].
  cbn [andb]. now rewrite Hnth.
Qed.

Lemma slice_from_1 {A} (x : A) (l : list A) : slice_from (x :: l) 1 = l.
Proof.
  unfold slice_from, clamp. cbn [Z.ltb Z.compare].
  pose proof (len_nonneg l). rewrite len_cons.
  rewrite Z.min_r by lia. reflexivity.
Qed.

Lemma bytes_eqb_refl (a : bytes) : bytes_eqb a a = true.
Proof.
  induction a as [| x a IH]; [reflexivity |].
  cbn [bytes_eqb]. rewrite IH, andb_true_r.
  apply Byte.byte_dec_lb. reflexivity.
Qed.

Lemma bytes_eqb_eq (a b : bytes) : bytes_eqb a b = true <-> a = b.
Proof.
  split; [| intros ->; apply bytes_eqb_refl].
  revert b. induction a as [| x a IH]; intros [| y b]; cbn [bytes_eqb];
    try discriminate; [reflexivity |].
  intros Hxy. apply andb_prop in Hxy as [Hx Ha].
  apply Byte.byte_dec_bl in Hx. f_equal; [exact Hx | now apply IH].
Qed.

Lemma even_mod2 (i : Z) : (i mod 2 =? 0) = Z.even i.
Proof. rewrite Zmod_even. now destruct (Z.even i). Qed.

Lemma shiftl_1 (n : Z) : 0 <= n -> Z.shiftl 1 n = 2 ^ n.
Proof. intros Hn. rewrite Z.shiftl_mul_pow2 by exact Hn. lia. Qed.

Lemma shiftr_1_bounds (i n : Z) :
  0 <= n -> 0 <= i < 2 ^ Z.succ n -> 0 <= Z.shiftr i 1 < 2 ^ n.
Proof.
  intros Hn Hi. rewrite Z.pow_succ_r in Hi by exact Hn.
  rewrite Z.shiftr_div_pow2 by lia. change (2 ^ 1) with 2.
  split; [apply Z.div_pos; lia | apply Z.div_lt_upper_bound; lia].
Qed.

(** ** The code computes the reference tree *)

Section Refinement.

Variable H : bytes -> bytes.

Lemma commit__S (fuel : nat) (leafs : list bytes) :
  commit_ H (S fuel) leafs =
  (assert_ (power_of_two_guard (len leafs)) "length must be power of two" ;;
   if len leafs =? 1 then getitem leafs 0
   else
     l <- commit_ H fuel (slice_to leafs (len leafs / 2)) ;;
     r <- commit_ H fuel (slice_from leafs (len leafs / 2)) ;;
     hash H (l ++ r)).
Proof. reflexivity. Qed.

Lemma open__S (fuel : nat) (index : Z) (leafs : list bytes) :
  open_ H (S fuel) index leafs =
  (assert_ (power_of_two_guard (len leafs)) "length must be power of two" ;;
   assert_ ((0 <=? index) && (index <? len leafs)) "cannot open invalid index" ;;
   if len leafs =? 2 then
     x <- getitem leafs (1 - index) ;; ret [x]
   else if 2 * index <? len leafs then
     p <- open_ H fuel index (slice_to leafs (len leafs / 2)) ;;
     c <- commit_ H fuel (slice_from leafs (len leafs / 2)) ;;
     ret (p ++ [c])
   else
     p <- open_ H fuel (index - len leafs / 2) (slice_from leafs (len leafs / 2)) ;;
     c <- commit_ H fuel (slice_to leafs (len leafs / 2)) ;;
     ret (p ++ [c])).
Proof. reflexivity. Qed.

Lemma verify__S (fuel : nat) (root : bytes) (index : Z) (path : list bytes)
      (leaf : bytes) :
  verify_ H (S fuel) root index path leaf =
  (assert_ ((0 <=? index) && (index <? Z.shiftl 1 (len path)))
           "cannot verify invalid index" ;;
   if len path =? 1 then
     if index =? 0 then
       p0 <- getitem path 0 ;; d <- hash H (leaf ++ p0) ;; ret (bytes_eqb root d)
     else
       p0 <- getitem path 0 ;; d <- hash H (p0 ++ leaf) ;; ret (bytes_eqb root d)
   else
     if index mod 2 =? 0 then
       p0 <- getitem path 0 ;; d <- hash H (leaf ++ p0) ;;
       verify_ H fuel root (Z.shiftr index 1) (slice_from path 1) d
     else
       p0 <- getitem path 0 ;; d <- hash H (p0 ++ leaf) ;;
       verify_ H fuel root (Z.shiftr index 1) (slice_from path 1) d).
Proof. reflexivity. Qed.

(** [commit_] on [2 ^ k] digests returns the root, with one hash per inner
    node, as soon as the budget exceeds the depth [k]. *)
Lemma commit__root (k : nat) :
  forall fuel l,
    length l = (2 ^ k)%nat -> (k < fuel)%nat ->
    commit_ H fuel l = (Ret (root_of H k l), (2 ^ k - 1)%nat).
Proof.
  induction k as [| k IH]; intros [| fuel] l Hlen Hfuel; try lia.
  - destruct l as [| x [| y l]]; try discriminate. reflexivity.
  - rewrite commit__S.
    rewrite (slice_to_half l k Hlen), (slice_from_half l k Hlen).
    rewrite (len_pow2 l (S k) Hlen), guard_pow2, bind_assert_true.
    pose proof (pow2_pos k) as Hp.
    destruct (Z.eqb_spec (2 ^ Z.of_nat (S k)) 1) as [H1 | _];
      [rewrite pow2_succ in H1; lia |].
    rewrite (IH fuel _ (length_left_half l k Hlen)) by lia.
    rewrite (IH fuel _ (length_right_half l k Hlen)) by lia.
    cbn [bind hash root_of]. f_equal.
    pose proof (Nat.pow_nonzero 2 k ltac:(lia)).
    cbn [Nat.pow]. lia.
Qed.

(** [open_] on [2 ^ S k] digests returns the path of the position. *)
Lemma open__path (k : nat) :
  forall fuel i l,
    length l = (2 ^ S k)%nat -> 0 <= i < 2 ^ Z.of_nat (S k) -> (S k < fuel)%nat ->
    fst (open_ H fuel i l) = Ret (path_of H (S k) i l).
Proof.
  induction k as [| k IH]; intros [| fuel] i l Hlen Hi Hfuel; try lia.
  - destruct l as [| a [| b [| c l]]]; try discriminate.
    change (2 ^ Z.of_nat 1) with 2 in Hi.
    assert (Hcases : i = 0 \/ i = 1) by lia.
    destruct Hcases as [-> | ->]; reflexivity.
  - rewrite open__S.
    rewrite (slice_to_half l (S k) Hlen), (slice_from_half l (S k) Hlen).
    rewrite (len_half l (S k) Hlen).
    rewrite (len_pow2 l (S (S k)) Hlen), guard_pow2, bind_assert_true.
    pose proof (pow2_pos (S k)) as Hp. pose proof (pow2_pos k) as Hp'.
    pose proof (pow2_succ (S k)) as Hs. pose proof (pow2_succ k) as Hs'.
    destruct (Z.leb_spec 0 i); [| lia].
    destruct (Z.ltb_spec i (2 ^ Z.of_nat (S (S k)))); [| lia].
    cbn [andb]. rewrite bind_assert_true.
    destruct (Z.eqb_spec (2 ^ Z.of_nat (S (S k))) 2); [lia |].
    change (path_of H (S (S k)) i l) with
      (if i <? 2 ^ Z.of_nat (S k)
       then path_of H (S k) i (firstn (2 ^ S k) l)
              ++ [root_of H (S k) (skipn (2 ^ S k) l)]
       else path_of H (S k) (i - 2 ^ Z.of_nat (S k)) (skipn (2 ^ S k) l)
              ++ [root_of H (S k) (firstn (2 ^ S k) l)]).
    destruct (Z.ltb_spec i (2 ^ Z.of_nat (S k))) as [Hlt | Hge].
    + destruct (Z.ltb_spec (2 * i) (2 ^ Z.of_nat (S (S k)))); [| lia].
      rewrite fst_bind, IH by (try apply length_left_half; assumption || lia).
      rewrite fst_bind, (commit__root (S k))
        by (try apply length_right_half; assumption || lia).
      reflexivity.
    + destruct (Z.ltb_spec (2 * i) (2 ^ Z.of_nat (S (S k)))); [lia |].
      rewrite fst_bind, IH by (try apply length_right_half; assumption || lia).
      rewrite fst_bind, (commit__root (S k))
        by (try apply length_left_half; assumption || lia).
      reflexivity.
Qed.

(** [verify_] on a non-empty path folds it against the leaf digest and
    compares with the root, one hash per path entry. *)
Lemma verify__climb (path : list bytes) :
  forall fuel root i leaf,
    path <> [] -> 0 <= i < 2 ^ len path -> (length path <= fuel)%nat ->
    verify_ H fuel root i path leaf
    = (Ret (bytes_eqb root (climb H i path leaf)), length path).
Proof.
  induction path as [| p0 [| p1 rest] IH];
    intros [| fuel] root i leaf Hne Hi Hfuel;
    try congruence; try (simpl in Hfuel; lia).
  - change (2 ^ len [p0]) with 2 in Hi.
    assert (Hcases : i = 0 \/ i = 1) by lia.
    destruct Hcases as [-> | ->]; reflexivity.
  - set (path := p1 :: rest) in *.
    assert (Hlen : len (p0 :: path) = Z.succ (len path)) by apply len_cons.
    pose proof (len_nonneg path) as Hnn.
    assert (Hpath : 1 <= len path)
      by (unfold path; rewrite len_cons; pose proof (len_nonneg rest); lia).
    rewrite verify__S, Hlen, shiftl_1 by lia.
    destruct (Z.leb_spec 0 i); [| lia].
    destruct (Z.ltb_spec i (2 ^ Z.succ (len path))); [| rewrite Hlen in Hi; lia].
    cbn [andb]. rewrite bind_assert_true.
    destruct (Z.eqb_spec (Z.succ (len path)) 1); [lia |].
    rewrite even_mod2, getitem_head, slice_from_1.
    rewrite Hlen in Hi. pose proof (shiftr_1_bounds i (len path) Hnn Hi) as Hsh.
    cbn [climb]. unfold parent.
    destruct (Z.even i); rewrite bind_ret_l;
      cbn [bind hash];
      rewrite IH by (try discriminate; try assumption; simpl in *; lia);
      reflexivity.
Qed.

End Refinement.

(** ** A larger budget does not change a finished call *)

Lemma bind_finished {A B} (m m' : M A) (f f' : A -> M B) :
  terminates (bind m f) ->
  (terminates m -> m' = m) ->
  (forall a, fst m = Ret a -> terminates (f a) -> f' a = f a) ->
  bind m' f' = bind m f.
Proof.
  unfold terminates. intros Hfin Hm Hf.
  destruct m as [[a | e |] n]; cbn [fst] in *.
  - rewrite Hm by discriminate. cbn [bind] in *.
    rewrite (Hf a eq_refl); [reflexivity |].
    destruct (f a) as [r n']. exact Hfin.
  - rewrite Hm by discriminate. reflexivity.
  - now cbn [bind fst] in Hfin.
Qed.

Section Budget.

Variable H : bytes -> bytes.

Lemma commit__more_fuel (fuel : nat) :
  forall fuel' leafs,
    (fuel <= fuel')%nat -> terminates (commit_ H fuel leafs) ->
    commit_ H fuel' leafs = commit_ H fuel leafs.
Proof.
  induction fuel as [| fuel IH]; intros [| fuel'] leafs Hle Hfin;
    try lia; try (now exfalso; apply Hfin).
  rewrite !commit__S in *.
  apply bind_finished; [exact Hfin | reflexivity |].
  intros [] _ Hrest. destruct (len leafs =? 1); [reflexivity |].
  apply bind_finished; [exact Hrest | intros; apply IH; (lia || assumption) |].
  intros l _ Hrest'.
  apply bind_finished; [exact Hrest' | intros; apply IH; (lia || assumption) |].
  reflexivity.
Qed.

Lemma open__more_fuel (fuel : nat) :
  forall fuel' index leafs,
    (fuel <= fuel')%nat -> terminates (open_ H fuel index leafs) ->
    open_ H fuel' index leafs = open_ H fuel index leafs.
Proof.
  induction fuel as [| fuel IH]; intros [| fuel'] index leafs Hle Hfin;
    try lia; try (now exfalso; apply Hfin).
  rewrite !open__S in *.
  apply bind_finished; [exact Hfin | reflexivity |].
  intros [] _ Hrest.
  apply bind_finished; [exact Hrest | reflexivity |].
  intros [] _ Hrest'.
  destruct (len leafs =? 2); [reflexivity |].
  destruct (2 * index <? len leafs);
    (apply bind_finished;
     [exact Hrest' | intros; apply IH; (lia || assumption) |];
     intros p _ Hrest'';
     apply bind_finished;
     [exact Hrest'' | intros; apply commit__more_fuel; (lia || assumption) |];
     reflexivity).
Qed.

Lemma verify__more_fuel (fuel : nat) :
  forall fuel' root index path leaf,
    (fuel <= fuel')%nat -> terminates (verify_ H fuel root index path leaf) ->
    verify_ H fuel' root index path leaf = verify_ H fuel root index path leaf.
Proof.
  induction fuel as [| fuel IH]; intros [| fuel'] root index path leaf Hle Hfin;
    try lia; try (now exfalso; apply Hfin).
  rewrite !verify__S in *.
  apply bind_finished; [exact Hfin | reflexivity |].
  intros [] _ Hrest.
  destruct (len path =? 1); [reflexivity |].
  destruct (index mod 2 =? 0);
    (apply bind_finished; [exact Hrest | reflexivity |];
     intros p0 _ Hrest';
     apply bind_finished; [exact Hrest' | reflexivity |];
     intros d _ Hrest''; apply IH; (lia || assumption)).
Qed.

End Budget.

(** ** The public wrappers *)

Section Wrappers.

Variable H : bytes -> bytes.
Context {elem : Type}.
Variable to_bytes : elem -> bytes.

Lemma leaf_digests_map (data_array : list elem) :
  leaf_digests H to_bytes data_array
  = (Ret (map (leaf_of H to_bytes) data_array), length data_array).
Proof.
  induction data_array as [| da rest IH]; [reflexivity |].
  cbn [leaf_digests]. rewrite IH. cbn [bind hash ret map].
  now rewrite Nat.add_0_r.
Qed.

Lemma commit_eq (fuel : nat) (data_array : list elem) :
  fst (commit H to_bytes fuel data_array)
  = fst (commit_ H fuel (map (leaf_of H to_bytes) data_array)).
Proof.
  unfold commit. rewrite fst_bind, leaf_digests_map. reflexivity.
Qed.

Lemma open_eq (fuel : nat) (index : Z) (data_array : list elem) :
  fst (open H to_bytes fuel index data_array)
  = fst (open_ H fuel index (map (leaf_of H to_bytes) data_array)).
Proof.
  unfold open. rewrite fst_bind, leaf_digests_map. reflexivity.
Qed.

Lemma verify_eq (fuel : nat) (root : bytes) (index : Z) (path : list bytes)
      (data_element : elem) :
  fst (verify H to_bytes fuel root index path data_element)
  = fst (verify_ H fuel root index path (leaf_of H to_bytes data_element)).
Proof. unfold verify. rewrite fst_bind. reflexivity. Qed.

End Wrappers.

(** ** The empty sequence and the single leaf *)

Section Degenerate.

Variable H : bytes -> bytes.

(** The length guard lets the empty sequence through, and both halves of
    an empty sequence are empty again. *)
Lemma commit__nil (fuel : nat) : commit_ H fuel [] = (OutOfFuel, 0%nat).
Proof.
  induction fuel as [| fuel IH]; [reflexivity |].
  rewrite commit__S. change (len (@nil bytes)) with 0.
  rewrite guard_zero, bind_assert_true.
  change (0 =? 1) with false. cbv iota.
  change (slice_to (@nil bytes) (0 / 2)) with (@nil bytes).
  rewrite IH. reflexivity.
Qed.

(** Any index is invalid for the empty sequence. *)
Lemma open__nil (fuel : nat) (index : Z) :
  open_ H (S fuel) index []
  = (Raise (AssertionError "cannot open invalid index"), 0%nat).
Proof.
  rewrite open__S. change (len (@nil bytes)) with 0.
  rewrite guard_zero, bind_assert_true.
  destruct (Z.leb_spec 0 index), (Z.ltb_spec index 0); try reflexivity; lia.
Qed.

(** A single digest passes both guards of [open_], is not the two-leaf
    base case, and sends index 0 into the empty left half. *)
Lemma open__single (fuel : nat) (d : bytes) :
  open_ H (S (S fuel)) 0 [d]
  = (Raise (AssertionError "cannot open invalid index"), 0%nat).
Proof.
  rewrite open__S. change (len [d]) with 1.
  change (power_of_two_guard 1) with true. rewrite bind_assert_true.
  change ((0 <=? 0) && (0 <? 1)) with true. rewrite bind_assert_true.
  change (1 =? 2) with false. change (2 * 0 <? 1) with true. cbv iota.
  change (slice_to [d] (1 / 2)) with (@nil bytes).
  rewrite open__nil. reflexivity.
Qed.

(** So [open_] never returns a path for a single digest, whatever the
    budget. *)
Lemma open__single_no_path (fuel : nat) (d : bytes) (p : list bytes) :
  fst (open_ H fuel 0 [d]) <> Ret p.
Proof.
  destruct fuel as [| [| fuel]]; [discriminate | discriminate |].
  rewrite open__single. discriminate.
Qed.

(** With an empty path the index guard of [verify_] admits index 0, and
    the next thing read is [path[0]]. *)
Lemma verify__nil (fuel : nat) (root leaf : bytes) :
  verify_ H (S fuel) root 0 [] leaf = (Raise IndexError, 0%nat).
Proof. reflexivity. Qed.

Lemma verify__nil_no_result (fuel : nat) (root leaf : bytes) (b : bool) :
  fst (verify_ H fuel root 0 [] leaf) <> Ret b.
Proof. destruct fuel; discriminate. Qed.

End Degenerate.

(** ** The guards at the head of each function *)

Section Guards.

Variable H : bytes -> bytes.

(** A failed length guard ends [commit_] at once. *)
Lemma commit__rejects_length (fuel : nat) (leafs : list bytes) :
  power_of_two_guard (len leafs) = false ->
  commit_ H (S fuel) leafs
  = (Raise (AssertionError "length must be power of two"), 0%nat).
Proof. intros Hg. rewrite commit__S, Hg. reflexivity. Qed.

(** A failed length guard ends [open_] at once. *)
Lemma open__rejects_length (fuel : nat) (index : Z) (leafs : list bytes) :
  power_of_two_guard (len leafs) = false ->
  open_ H (S fuel) index leafs
  = (Raise (AssertionError "length must be power of two"), 0%nat).
Proof. intros Hg. rewrite open__S, Hg. reflexivity. Qed.

(** An index outside the sequence ends [open_] at one of its two guards. *)
Lemma open__rejects_index (fuel : nat) (index : Z) (leafs : list bytes) :
  ~ (0 <= index < len leafs) ->
  open_ H (S fuel) index leafs
  = (Raise (AssertionError (if power_of_two_guard (len leafs)
                            then "cannot open invalid index"
                            else "length must be power of two")), 0%nat).
Proof.
  intros Hi. rewrite open__S.
  destruct (power_of_two_guard (len leafs)); [| reflexivity].
  rewrite bind_assert_true.
  destruct (Z.leb_spec 0 index), (Z.ltb_spec index (len leafs));
    try reflexivity; lia.
Qed.

(** An index the path cannot represent ends [verify_] at its guard. *)
Lemma verify__rejects_index (fuel : nat) (root : bytes) (index : Z)
      (path : list bytes) (leaf : bytes) :
  ~ (0 <= index < 2 ^ len path) ->
  verify_ H (S fuel) root index path leaf
  = (Raise (AssertionError "cannot verify invalid index"), 0%nat).
Proof.
  intros Hi. rewrite verify__S, shiftl_1 by apply len_nonneg.
  destruct (Z.leb_spec 0 index), (Z.ltb_spec index (2 ^ len path));
    try reflexivity; lia.
Qed.

(** A positive length that is not a power of two fails the guard. *)
Lemma guard_rejects (n : Z) :
  0 < n -> (forall k : nat, n <> 2 ^ Z.of_nat k) -> power_of_two_guard n = false.
Proof.
  intros Hpos Hnot. destruct (power_of_two_guard n) eqn:Hg; [| reflexivity].
  destruct (guard_sound n Hpos Hg) as [k Hk]. now apply Hnot in Hk.
Qed.

(** Both functions reject a positive length that is not a power of two
    with their first statement: with a budget of one call and no hash. *)
Lemma non_power_of_two_rejected (fuel : nat) (index : Z) (leafs : list bytes) :
  0 < len leafs -> (forall k : nat, len leafs <> 2 ^ Z.of_nat k) ->
  commit_ H (S fuel) leafs
  = (Raise (AssertionError "length must be power of two"), 0%nat) /\
  open_ H (S fuel) index leafs
  = (Raise (AssertionError "length must be power of two"), 0%nat).
Proof.
  intros Hpos Hnot. pose proof (guard_rejects _ Hpos Hnot) as Hg.
  split; [now apply commit__rejects_length | now apply open__rejects_length].
Qed.

End Guards.

(** ** Properties of the specification *)

Section Properties.

Variable H : bytes -> bytes.
Context {elem : Type}.
Variable to_bytes : elem -> bytes.

(** C5. On a digest sequence of power-of-two length [n = 2^k], with any
    budget above the depth [k]: for [n == 1], [commit_] returns the single
    digest unchanged and without hashing; for [n >= 2] it splits the
    sequence exactly at its midpoint, commits the left half and the right
    half, and returns the hash of the left digest followed by the right
    digest, computed by one further invocation of the hash. *)
Theorem commit__recursion (k : nat) (leafs : list bytes) (fuel : nat) :
  length leafs = (2 ^ k)%nat -> (k < fuel)%nat ->
  let left := slice_to leafs (len leafs / 2) in
  let right := slice_from leafs (len leafs / 2) in
  (len leafs = 1 ->
     exists d, leafs = [d] /\ commit_ H fuel leafs = (Ret d, 0%nat)) /\
  (2 <= len leafs ->
     leafs = left ++ right /\
     len left = len leafs / 2 /\ len right = len leafs / 2 /\
     exists dl dr nl nr,
       commit_ H fuel left = (Ret dl, nl) /\
       commit_ H fuel right = (Ret dr, nr) /\
       commit_ H fuel leafs = (Ret (H (dl ++ dr)), S (nl + nr))).
Proof.
  intros Hlen Hfuel left right. split.
  - intros H1. destruct leafs as [| d [| d' rest]];
      try (unfold len in H1; simpl in H1; lia).
    exists d. split; [reflexivity |].
    destruct fuel as [| fuel']; [lia | reflexivity].
  - intros H2. destruct k as [| k].
    + apply len_pow2 in Hlen. change (2 ^ Z.of_nat 0) with 1 in Hlen. lia.
    + subst left right.
      rewrite (slice_to_half leafs k Hlen), (slice_from_half leafs k Hlen).
      rewrite (len_half leafs k Hlen).
      pose proof (length_left_half leafs k Hlen) as HL.
      pose proof (length_right_half leafs k Hlen) as HR.
      split; [apply halves_app |].
      split; [now apply len_pow2 |]. split; [now apply len_pow2 |].
      exists (root_of H k (firstn (2 ^ k) leafs)),
             (root_of H k (skipn (2 ^ k) leafs)),
             (2 ^ k - 1)%nat, (2 ^ k - 1)%nat.
      rewrite !(commit__root H k) by (assumption || lia).
      rewrite (commit__root H (S k)) by (assumption || lia).
      repeat split. cbn [root_of]. f_equal.
      pose proof (Nat.pow_nonzero 2 k ltac:(lia)). cbn [Nat.pow]. lia.
Qed.

(** C6. On a digest sequence of power-of-two length [n = 2^k] and a valid
    index [i], with any budget above the depth [k]: for [n == 2], [open_]
    returns exactly [[leafs[1 - i]]]; for [n >= 4] and [i < n/2] it returns
    [open_(i, left half)] with the commit digest of the right half appended
    as last entry; for [n >= 4] and [i >= n/2] it returns
    [open_(i - n/2, right half)] with the commit digest of the left half
    appended. *)
Theorem open__recursion (k : nat) (leafs : list bytes) (i : Z) (fuel : nat) :
  length leafs = (2 ^ k)%nat -> 0 <= i < len leafs -> (k < fuel)%nat ->
  let left := slice_to leafs (len leafs / 2) in
  let right := slice_from leafs (len leafs / 2) in
  (len leafs = 2 ->
     exists x, getitem leafs (1 - i) = ret x /\
               open_ H fuel i leafs = (Ret [x], 0%nat)) /\
  (4 <= len leafs -> i < len leafs / 2 ->
     exists p c,
       fst (open_ H fuel i left) = Ret p /\
       fst (commit_ H fuel right) = Ret c /\
       fst (open_ H fuel i leafs) = Ret (p ++ [c])) /\
  (4 <= len leafs -> len leafs / 2 <= i ->
     exists p c,
       fst (open_ H fuel (i - len leafs / 2) right) = Ret p /\
       fst (commit_ H fuel left) = Ret c /\
       fst (open_ H fuel i leafs) = Ret (p ++ [c])).
Proof.
  intros Hlen Hi Hfuel left right.
  destruct k as [| [| k]].
  - apply len_pow2 in Hlen. change (2 ^ Z.of_nat 0) with 1 in Hlen.
    repeat split; intros; lia.
  - destruct leafs as [| a [| b [| c rest]]]; try discriminate.
    change (len [a; b]) with 2 in *.
    split; [intros _ | split; intros; lia].
    destruct fuel as [| fuel']; [lia |].
    assert (Hcases : i = 0 \/ i = 1) by lia.
    destruct Hcases as [-> | ->]; [exists b | exists a]; split; reflexivity.
  - pose proof (len_pow2 leafs _ Hlen) as HlenZ.
    pose proof (pow2_succ (S k)) as Hs. pose proof (pow2_succ k) as Hs'.
    pose proof (pow2_pos k) as Hp.
    pose proof (length_left_half leafs (S k) Hlen) as HL.
    pose proof (length_right_half leafs (S k) Hlen) as HR.
    pose proof (open__path H (S k) fuel i leafs Hlen ltac:(lia) ltac:(lia))
      as Hopen.
    subst left right.
    rewrite (slice_to_half leafs (S k) Hlen), (slice_from_half leafs (S k) Hlen).
    rewrite (len_half leafs (S k) Hlen).
    change (path_of H (S (S k)) i leafs) with
      (if i <? 2 ^ Z.of_nat (S k)
       then path_of H (S k) i (firstn (2 ^ S k) leafs)
              ++ [root_of H (S k) (skipn (2 ^ S k) leafs)]
       else path_of H (S k) (i - 2 ^ Z.of_nat (S k)) (skipn (2 ^ S k) leafs)
              ++ [root_of H (S k) (firstn (2 ^ S k) leafs)]) in Hopen.
    split; [intros; lia |]. split; intros _ Hside.
    + destruct (Z.ltb_spec i (2 ^ Z.of_nat (S k))); [| lia].
      eexists _, _. split; [apply (open__path H k); (assumption || lia) |].
      split; [| exact Hopen].
      rewrite (commit__root H (S k)) by (assumption || lia). reflexivity.
    + destruct (Z.ltb_spec i (2 ^ Z.of_nat (S k))); [lia |].
      eexists _, _. split; [apply (open__path H k); (assumption || lia) |].
      split; [| exact Hopen].
      rewrite (commit__root H (S k)) by (assumption || lia). reflexivity.
Qed.

(** C7. On a non-empty path and a valid index [0 <= index < 2^len(path)],
    with a budget of at least [len(path)] calls, [verify_] folds the path
    against the leaf digest from depth 0 and compares the result with the
    root ([climb], one hash per entry): at each entry an even index gives
    [hash(leaf ++ path[0])] and an odd one [hash(path[0] ++ leaf)]; while
    entries remain the index is shifted right by one bit and the head
    entry dropped; at the last entry the digest is compared with the
    root. *)
Theorem verify__fold (fuel : nat) (root : bytes) (index : Z)
        (path : list bytes) (leaf : bytes) :
  path <> [] -> 0 <= index < 2 ^ len path -> (length path <= fuel)%nat ->
  verify_ H fuel root index path leaf
  = (Ret (bytes_eqb root (climb H index path leaf)), length path) /\
  (forall p0, path = [p0] ->
     fst (verify_ H fuel root index path leaf)
     = Ret (bytes_eqb root
              (if Z.even index then H (leaf ++ p0) else H (p0 ++ leaf)))) /\
  (forall p0 rest, path = p0 :: rest -> rest <> [] ->
     fst (verify_ H fuel root index path leaf)
     = fst (verify_ H fuel root (Z.shiftr index 1) rest
              (if Z.even index then H (leaf ++ p0) else H (p0 ++ leaf)))).
Proof.
  intros Hne Hi Hfuel.
  pose proof (verify__climb H path fuel root index leaf Hne Hi Hfuel) as Hv.
  split; [exact Hv |]. rewrite Hv. split.
  - intros p0 ->. reflexivity.
  - intros p0 rest -> Hrest.
    rewrite len_cons in Hi.
    rewrite (verify__climb H rest fuel root (Z.shiftr index 1));
      [reflexivity | exact Hrest | | simpl in Hfuel; lia].
    apply shiftr_1_bounds; [apply len_nonneg | exact Hi].
Qed.

(** C8. [open_] with an index outside [[0, n)] and [verify_] with an index
    outside [[0, 2^len(path))] raise an AssertionError from their guards:
    already with a budget of one call, so before any recursive call or
    fold step, and without having invoked the hash.  The public [open]
    and [verify] end in the same error. *)
Theorem invalid_index_rejected (fuel : nat) (index : Z) :
  (forall leafs, ~ (0 <= index < len leafs) ->
     open_ H (S fuel) index leafs
     = (Raise (AssertionError (if power_of_two_guard (len leafs)
                               then "cannot open invalid index"
                               else "length must be power of two")), 0%nat)) /\
  (forall root path leaf, ~ (0 <= index < 2 ^ len path) ->
     verify_ H (S fuel) root index path leaf
     = (Raise (AssertionError "cannot verify invalid index"), 0%nat)) /\
  (forall E : list elem, ~ (0 <= index < len E) ->
     exists msg,
       fst (open H to_bytes (S fuel) index E) = Raise (AssertionError msg)) /\
  (forall root path (e : elem), ~ (0 <= index < 2 ^ len path) ->
     fst (verify H to_bytes (S fuel) root index path e)
     = Raise (AssertionError "cannot verify invalid index")).
Proof.
  split; [intros; now apply open__rejects_index |].
  split; [intros; now apply verify__rejects_index |].
  split.
  - intros E Hi. rewrite open_eq, open__rejects_index.
    + eexists. reflexivity.
    + unfold len in *. now rewrite length_map.
  - intros root path e Hi.
    now rewrite verify_eq, verify__rejects_index.
Qed.

(** C10. [commit_] and [open_] finish on every digest sequence whose
    length is a power of two, and [verify_] on every non-empty path, once
    the budget exceeds the depth; the halves of a sequence of two or more
    digests are non-empty, strictly shorter and again of power-of-two
    length, and [path[1:]] is the path without its head.  The length guard
    also holds of the empty sequence, on which [commit_] uses up every
    budget. *)
Theorem recursion_terminates :
  (forall k leafs fuel,
     length leafs = (2 ^ k)%nat -> (k < fuel)%nat ->
     terminates (commit_ H fuel leafs)) /\
  (forall k leafs index fuel,
     length leafs = (2 ^ k)%nat -> (S k < fuel)%nat ->
     terminates (open_ H fuel index leafs)) /\
  (forall path root index leaf fuel,
     path <> [] -> (length path <= fuel)%nat ->
     terminates (verify_ H fuel root index path leaf)) /\
  (forall k (leafs : list bytes),
     length leafs = (2 ^ S k)%nat ->
     length (slice_to leafs (len leafs / 2)) = (2 ^ k)%nat /\
     length (slice_from leafs (len leafs / 2)) = (2 ^ k)%nat /\
     (0 < 2 ^ k < length leafs)%nat) /\
  (forall (p0 : bytes) rest, slice_from (p0 :: rest) 1 = rest) /\
  power_of_two_guard (len (@nil bytes)) = true /\
  (forall fuel, ~ terminates (commit_ H fuel [])).
Proof.
  unfold terminates. repeat apply conj.
  - intros k leafs fuel Hlen Hfuel.
    now rewrite (commit__root H k fuel leafs Hlen Hfuel).
  - intros k leafs index [| fuel] Hlen Hfuel; [lia |].
    pose proof (len_pow2 leafs k Hlen) as HlenZ.
    destruct (Z.le_gt_cases 0 index) as [Hlo |];
      [destruct (Z.lt_ge_cases index (len leafs)) as [Hhi |] |];
      try (rewrite open__rejects_index by lia; discriminate).
    destruct k as [| k].
    + destruct leafs as [| d [| d' rest]]; try discriminate.
      change (len [d]) with 1 in Hhi. replace index with 0 by lia.
      destruct fuel as [| fuel]; [lia |].
      rewrite open__single. discriminate.
    + rewrite (open__path H k) by (assumption || lia). discriminate.
  - intros path root index leaf [| fuel] Hne Hfuel.
    + destruct path; [congruence | simpl in Hfuel; lia].
    + destruct (Z.le_gt_cases 0 index) as [Hlo |];
        [destruct (Z.lt_ge_cases index (2 ^ len path)) as [Hhi |] |];
        try (rewrite verify__rejects_index by lia; discriminate).
      rewrite verify__climb by (assumption || lia). discriminate.
  - intros k leafs Hlen.
    rewrite (slice_to_half leafs k Hlen), (slice_from_half leafs k Hlen).
    rewrite (length_left_half leafs k Hlen), (length_right_half leafs k Hlen).
    pose proof (Nat.pow_nonzero 2 k ltac:(lia)).
    rewrite Hlen. cbn [Nat.pow]. lia.
  - intros p0 rest. apply slice_from_1.
  - reflexivity.
  - intros fuel Hterm. now rewrite commit__nil in Hterm.
Qed.

(** C4. The empty sequence is not rejected by [commit]: the length guard
    [len & (len-1) == 0] holds of length 0, and the call then uses up
    every budget without raising.  ([open] does fail on it at once, though
    at the index guard.  Positive lengths that are not powers of two are
    rejected by both: [non_power_of_two_rejected].) *)
Theorem commit_accepts_empty (fuel : nat) :
  power_of_two_guard (len (@nil bytes)) = true /\
  commit_ H fuel [] = (OutOfFuel, 0%nat) /\
  commit H to_bytes fuel [] = (OutOfFuel, 0%nat) /\
  (forall index,
     open_ H (S fuel) index []
     = (Raise (AssertionError "cannot open invalid index"), 0%nat)).
Proof.
  split; [reflexivity |]. split; [apply commit__nil |]. split.
  - unfold commit. cbn [leaf_digests]. rewrite bind_ret_l. apply commit__nil.
  - intros index. apply open__nil.
Qed.

(** C1. At a one-element sequence, a power-of-two length that [commit]
    accepts, the round trip [verify(commit(E), 0, open(0, E), E[0])] does
    not return true: [commit] returns the leaf digest, and [open] then
    raises "cannot open invalid index" although index 0 is valid for [E].
    With a budget of fewer than two nested calls the expression does not
    finish, so no budget makes it return. *)
Theorem round_trip_single_element_raises (e : elem) (fuel : nat) :
  fst (commit H to_bytes (S fuel) [e]) = Ret (H (to_bytes e)) /\
  round_trip H to_bytes (S (S fuel)) [e] 0
  = (Raise (AssertionError "cannot open invalid index"), 2%nat) /\
  fst (round_trip H to_bytes 1 [e] 0) = OutOfFuel /\
  fst (round_trip H to_bytes 0 [e] 0) = OutOfFuel.
Proof.
  split; [reflexivity |]. split; [| split; reflexivity].
  unfold round_trip, commit, open. cbn [leaf_digests]. cbn [bind hash ret].
  rewrite open__single. reflexivity.
Qed.

(** X12. For every element sequence [E] whose length is a power of two
    and at least 2, and every index [0 <= i < len(E)],
    [verify(commit(E), i, open(i, E), E[i])] returns true. *)
Theorem round_trip_returns_true (k : nat) (E : list elem) (i : Z) (fuel : nat) :
  length E = (2 ^ k)%nat -> 2 <= len E -> 0 <= i < len E -> (k < fuel)%nat ->
  fst (round_trip H to_bytes fuel E i) = Ret true.
Proof.
  intros Hlen H2 Hi Hfuel.
  destruct k as [| k];
    [apply len_pow2 in Hlen; change (2 ^ Z.of_nat 0) with 1 in Hlen; lia |].
  set (leafs := map (leaf_of H to_bytes) E).
  assert (Hleafs : length leafs = (2 ^ S k)%nat)
    by (unfold leafs; now rewrite length_map).
  pose proof (len_pow2 E (S k) Hlen) as HlenZ.
  destruct (nth_error E (Z.to_nat i)) as [e |] eqn:He;
    [| apply nth_error_None in He; unfold len in Hi; lia].
  unfold round_trip.
  rewrite fst_bind, commit_eq. fold leafs.
  rewrite (commit__root H (S k)) by (assumption || lia). cbn [fst].
  rewrite fst_bind, open_eq. fold leafs.
  rewrite (open__path H k) by (assumption || lia).
  rewrite (getitem_nth_error E i e) by (lia || assumption).
  rewrite bind_ret_l, verify_eq.
  rewrite verify__climb.
  - cbn [fst]. f_equal.
    assert (Hleaf : leaf_of H to_bytes e = nth (Z.to_nat i) leafs []).
    { symmetry. apply nth_error_nth. unfold leafs.
      rewrite nth_error_map, He. reflexivity. }
    rewrite Hleaf, climb_path_of by (assumption || lia).
    apply bytes_eqb_refl.
  - intros Hnil. apply (f_equal (@length bytes)) in Hnil.
    rewrite length_path_of in Hnil. discriminate.
  - unfold len. rewrite length_path_of. lia.
  - rewrite length_path_of. lia.
Qed.

(** C2. At a single-element sequence [open(0, E)] does not return the
    empty path: [open_] passes both guards on the one leaf digest, takes
    the left branch ([0 < 1/2]), and the call on the empty left half,
    which the length guard lets through, raises the AssertionError of the
    index guard, after the one leaf hash. *)
Theorem open_single_element_raises (e : elem) (fuel : nat) :
  open H to_bytes (S (S fuel)) 0 [e]
  = (Raise (AssertionError "cannot open invalid index"), 1%nat).
Proof.
  unfold open. cbn [leaf_digests]. cbn [bind hash ret].
  rewrite open__single. reflexivity.
Qed.

(** C3. With the empty path and index 0, [verify(r, 0, [], e)] does not
    return the comparison of the leaf digest with the root: the index
    guard admits index 0 for the empty path, and reading [path[0]] then
    raises IndexError, after the one leaf hash. *)
Theorem verify_empty_path_raises (root : bytes) (e : elem) (fuel : nat) :
  verify H to_bytes (S fuel) root 0 [] e = (Raise IndexError, 1%nat).
Proof.
  unfold verify. cbn [bind hash].
  rewrite verify__nil. reflexivity.
Qed.

(** C9. At a one-element sequence, where [log2(n) = 0], [open(0, E)]
    returns no path of any length: with a budget of two or more nested
    calls it raises, and with less it does not finish. *)
Theorem open_single_element_returns_no_path (e : elem) (fuel : nat) :
  Z.log2 (len [e]) = 0 /\
  fst (open H to_bytes (S (S fuel)) 0 [e])
  = Raise (AssertionError "cannot open invalid index") /\
  fst (open H to_bytes 1 0 [e]) = OutOfFuel /\
  fst (open H to_bytes 0 0 [e]) = OutOfFuel.
Proof.
  split; [reflexivity |]. split; [| split; reflexivity].
  rewrite open_eq. cbn [map]. rewrite open__single. reflexivity.
Qed.

(** X13. For every element sequence [E] whose length [n] is a power of two
    and at least 2, and every valid index, [open(i, E)] returns a path of
    exactly [log2(n)] digests. *)
Theorem open_path_length (k : nat) (E : list elem) (i : Z) (fuel : nat) :
  length E = (2 ^ k)%nat -> 2 <= len E -> 0 <= i < len E -> (k < fuel)%nat ->
  exists path,
    fst (open H to_bytes fuel i E) = Ret path /\ len path = Z.log2 (len E).
Proof.
  intros Hlen H2 Hi Hfuel.
  destruct k as [| k];
    [apply len_pow2 in Hlen; change (2 ^ Z.of_nat 0) with 1 in Hlen; lia |].
  pose proof (len_pow2 E (S k) Hlen) as HlenZ.
  eexists. split.
  - rewrite open_eq. apply (open__path H k); [now rewrite length_map | lia | lia].
  - unfold len at 1. rewrite length_path_of, HlenZ.
    rewrite Z.log2_pow2 by lia. reflexivity.
Qed.

End Properties.

(** ** The properties at the sample instance *)

Example commit_sample :
  commit sample_hash sample_to_bytes 3 sample_elements
  = (Ret ["c"; "d"; "a"; "b"]%byte, 7%nat).
Proof. reflexivity. Qed.

Example open_sample :
  open sample_hash sample_to_bytes 3 2 sample_elements
  = (Ret [["d"]; ["b"; "a"]]%byte, 5%nat).
Proof. reflexivity. Qed.

Example round_trip_sample :
  round_trip sample_hash sample_to_bytes 3 sample_elements 2 = (Ret true, 15%nat).
Proof. reflexivity. Qed.

Example commit_three_elements :
  commit sample_hash sample_to_bytes 3 [sample_a; sample_b; sample_c]
  = (Raise (AssertionError "length must be power of two"), 3%nat).
Proof. reflexivity. Qed.

Example commit_single_element :
  commit sample_hash sample_to_bytes 1 [sample_a] = (Ret (sample_hash sample_a), 1%nat).
Proof. reflexivity. Qed.

Lemma commit__recursion_witness :
  length sample_elements = (2 ^ 2)%nat /\ (2 < 3)%nat /\
  exists dl dr nl nr,
    commit_ sample_hash 3 [sample_a; sample_b] = (Ret dl, nl) /\
    commit_ sample_hash 3 [sample_c; sample_d] = (Ret dr, nr) /\
    commit_ sample_hash 3 sample_elements
    = (Ret (sample_hash (dl ++ dr)), S (nl + nr)).
Proof.
  split; [reflexivity |]. split; [lia |].
  destruct (commit__recursion sample_hash 2 sample_elements 3 eq_refl ltac:(lia))
    as [_ Hrec].
  destruct (Hrec ltac:(vm_compute; discriminate)) as (_ & _ & _ & Hex).
  exact Hex.
Defined.

Lemma open__recursion_witness :
  length sample_elements = (2 ^ 2)%nat /\ 0 <= 2 < len sample_elements /\
  exists p c,
    fst (open_ sample_hash 3 0 [sample_c; sample_d]) = Ret p /\
    fst (commit_ sample_hash 3 [sample_a; sample_b]) = Ret c /\
    fst (open_ sample_hash 3 2 sample_elements) = Ret (p ++ [c]).
Proof.
  split; [reflexivity |]. split; [vm_compute; split; discriminate || reflexivity |].
  destruct (open__recursion sample_hash 2 sample_elements 2 3 eq_refl
              ltac:(vm_compute; split; discriminate || reflexivity) ltac:(lia))
    as (_ & _ & Hright).
  exact (Hright ltac:(vm_compute; discriminate) ltac:(vm_compute; discriminate)).
Defined.

Lemma verify__fold_witness :
  [sample_d; sample_hash (sample_a ++ sample_b)] <> [] /\
  0 <= 2 < 2 ^ len [sample_d; sample_hash (sample_a ++ sample_b)] /\
  verify_ sample_hash 2
    (sample_hash (sample_hash (sample_a ++ sample_b)
                    ++ sample_hash (sample_c ++ sample_d)))
    2 [sample_d; sample_hash (sample_a ++ sample_b)] sample_c
  = (Ret true, 2%nat).
Proof.
  split; [discriminate |].
  split; [vm_compute; split; discriminate || reflexivity |].
  exact (proj1 (verify__fold sample_hash 2
                  (sample_hash (sample_hash (sample_a ++ sample_b)
                                  ++ sample_hash (sample_c ++ sample_d)))
                  2 [sample_d; sample_hash (sample_a ++ sample_b)] sample_c
                  ltac:(discriminate)
                  ltac:(vm_compute; split; discriminate || reflexivity)
                  ltac:(simpl; lia))).
Defined.

Lemma invalid_index_rejected_witness :
  ~ (0 <= 7 < len sample_elements) /\
  open_ sample_hash 1 7 sample_elements
  = (Raise (AssertionError "cannot open invalid index"), 0%nat) /\
  ~ (0 <= 7 < 2 ^ len [sample_d; sample_a]) /\
  verify_ sample_hash 1 sample_b 7 [sample_d; sample_a] sample_c
  = (Raise (AssertionError "cannot verify invalid index"), 0%nat).
Proof.
  assert (Ho : ~ (0 <= 7 < len sample_elements))
    by (vm_compute; intros [_ Hlt]; discriminate).
  assert (Hv : ~ (0 <= 7 < 2 ^ len [sample_d; sample_a]))
    by (vm_compute; intros [_ Hlt]; discriminate).
  destruct (invalid_index_rejected sample_hash sample_to_bytes 0 7)
    as (Hopen & Hverify & _).
  split; [exact Ho |]. split; [exact (Hopen sample_elements Ho) |].
  split; [exact Hv |]. exact (Hverify sample_b [sample_d; sample_a] sample_c Hv).
Defined.

Lemma recursion_terminates_witness :
  length sample_elements = (2 ^ 2)%nat /\
  terminates (commit_ sample_hash 3 sample_elements) /\
  terminates (open_ sample_hash 4 2 sample_elements) /\
  terminates (verify_ sample_hash 2 sample_b 2 [sample_d; sample_a] sample_c).
Proof.
  destruct (recursion_terminates sample_hash) as (Hc & Ho & Hv & _).
  split; [reflexivity |].
  split; [apply (Hc 2%nat); [reflexivity | lia] |].
  split; [apply (Ho 2%nat); [reflexivity | lia] |].
  apply Hv; [discriminate | simpl; lia].
Defined.

Lemma round_trip_returns_true_witness :
  length sample_elements = (2 ^ 2)%nat /\ 2 <= len sample_elements /\
  0 <= 2 < len sample_elements /\
  fst (round_trip sample_hash sample_to_bytes 3 sample_elements 2) = Ret true.
Proof.
  assert (H2 : 2 <= len sample_elements) by (vm_compute; discriminate).
  assert (Hi : 0 <= 2 < len sample_elements)
    by (vm_compute; split; discriminate || reflexivity).
  split; [reflexivity |]. split; [exact H2 |]. split; [exact Hi |].
  apply (round_trip_returns_true sample_hash sample_to_bytes 2 sample_elements 2 3
           eq_refl H2 Hi).
  lia.
Defined.

Lemma open_path_length_witness :
  length sample_elements = (2 ^ 2)%nat /\ 2 <= len sample_elements /\
  0 <= 2 < len sample_elements /\
  exists path,
    fst (open sample_hash sample_to_bytes 3 2 sample_elements) = Ret path /\
    len path = Z.log2 (len sample_elements).
Proof.
  assert (H2 : 2 <= len sample_elements) by (vm_compute; discriminate).
  assert (Hi : 0 <= 2 < len sample_elements)
    by (vm_compute; split; discriminate || reflexivity).
  split; [reflexivity |]. split; [exact H2 |]. split; [exact Hi |].
  apply (open_path_length sample_hash sample_to_bytes 2 sample_elements 2 3
           eq_refl H2 Hi).
  lia.
Defined.

(** ** Further properties of the code: guards and cost *)

Lemma pow2_gt_lin (k : nat) : (k < 2 ^ k)%nat.
Proof. apply Nat.pow_gt_lin_r. lia. Qed.

Section Cost.

Variable H : bytes -> bytes.

(** [open_] on [2 ^ S k] digests, with its hash count: every sibling
    subtree is committed afresh. *)
Lemma open__path_cost (k : nat) :
  forall fuel i l,
    length l = (2 ^ S k)%nat -> 0 <= i < 2 ^ Z.of_nat (S k) -> (S k < fuel)%nat ->
    open_ H fuel i l = (Ret (path_of H (S k) i l), (2 ^ S k - 1 - S k)%nat).
Proof.
  induction k as [| k IH]; intros [| fuel] i l Hlen Hi Hfuel; try lia.
  - destruct l as [| a [| b [| c l]]]; try discriminate.
    change (2 ^ Z.of_nat 1) with 2 in Hi.
    assert (Hcases : i = 0 \/ i = 1) by lia.
    destruct Hcases as [-> | ->]; reflexivity.
  - rewrite open__S.
    rewrite (slice_to_half l (S k) Hlen), (slice_from_half l (S k) Hlen).
    rewrite (len_half l (S k) Hlen).
    rewrite (len_pow2 l (S (S k)) Hlen), guard_pow2, bind_assert_true.
    pose proof (pow2_pos (S k)) as Hp. pose proof (pow2_pos k) as Hp'.
    pose proof (pow2_succ (S k)) as Hs. pose proof (pow2_succ k) as Hs'.
    destruct (Z.leb_spec 0 i); [| lia].
    destruct (Z.ltb_spec i (2 ^ Z.of_nat (S (S k)))); [| lia].
    cbn [andb]. rewrite bind_assert_true.
    destruct (Z.eqb_spec (2 ^ Z.of_nat (S (S k))) 2); [lia |].
    change (path_of H (S (S k)) i l) with
      (if i <? 2 ^ Z.of_nat (S k)
       then path_of H (S k) i (firstn (2 ^ S k) l)
              ++ [root_of H (S k) (skipn (2 ^ S k) l)]
       else path_of H (S k) (i - 2 ^ Z.of_nat (S k)) (skipn (2 ^ S k) l)
              ++ [root_of H (S k) (firstn (2 ^ S k) l)]).
    pose proof (pow2_gt_lin (S k)) as Hlin.
    assert (Hcount : (2 ^ S k - 1 - S k + (2 ^ S k - 1 + 0)
                      = 2 ^ S (S k) - 1 - S (S k))%nat)
      by (change (2 ^ S (S k))%nat with (2 * 2 ^ S k)%nat; lia).
    destruct (Z.ltb_spec i (2 ^ Z.of_nat (S k))) as [Hlt | Hge].
    + destruct (Z.ltb_spec (2 * i) (2 ^ Z.of_nat (S (S k)))); [| lia].
      rewrite IH by (try apply length_left_half; assumption || lia).
      rewrite (commit__root H (S k))
        by (try apply length_right_half; assumption || lia).
      cbn [bind ret]. now rewrite Hcount.
    + destruct (Z.ltb_spec (2 * i) (2 ^ Z.of_nat (S (S k)))); [lia |].
      rewrite IH by (try apply length_right_half; assumption || lia).
      rewrite (commit__root H (S k))
        by (try apply length_left_half; assumption || lia).
      cbn [bind ret]. now rewrite Hcount.
Qed.

End Cost.

Section Further.

Variable H : bytes -> bytes.
Context {elem : Type}.
Variable to_bytes : elem -> bytes.

(** X1. A positive length that is not a power of two is rejected by the
    first statement of [commit_] and of [open_], with a budget of one call
    and no hash; the public [commit] and [open] raise the same
    AssertionError once the [len(E)] leaf digests are computed. *)
Theorem length_guard_rejects (fuel : nat) (index : Z) :
  (forall leafs : list bytes,
     0 < len leafs -> (forall k : nat, len leafs <> 2 ^ Z.of_nat k) ->
     commit_ H (S fuel) leafs
     = (Raise (AssertionError "length must be power of two"), 0%nat) /\
     open_ H (S fuel) index leafs
     = (Raise (AssertionError "length must be power of two"), 0%nat)) /\
  (forall E : list elem,
     0 < len E -> (forall k : nat, len E <> 2 ^ Z.of_nat k) ->
     commit H to_bytes (S fuel) E
     = (Raise (AssertionError "length must be power of two"), length E) /\
     open H to_bytes (S fuel) index E
     = (Raise (AssertionError "length must be power of two"), length E)).
Proof.
  split; [intros leafs Hpos Hnot; now apply non_power_of_two_rejected |].
  intros E Hpos Hnot.
  assert (Hlen : len (map (leaf_of H to_bytes) E) = len E)
    by (unfold len; now rewrite length_map).
  destruct (non_power_of_two_rejected H fuel index (map (leaf_of H to_bytes) E))
    as [Hc Ho]; [now rewrite Hlen | now rewrite Hlen |].
  unfold commit, open. rewrite leaf_digests_map. cbn [bind].
  rewrite Hc, Ho, Nat.add_0_r. split; reflexivity.
Qed.

(** X3. On [n = 2^k] elements [commit] returns a digest after exactly
    [2n - 1] invocations of the hash: [n] for the leaves and [n - 1], in
    [commit_], for the inner nodes. *)
Theorem commit_cost (k : nat) (E : list elem) (fuel : nat) :
  length E = (2 ^ k)%nat -> (k < fuel)%nat ->
  exists root,
    commit_ H fuel (map (leaf_of H to_bytes) E) = (Ret root, (length E - 1)%nat) /\
    commit H to_bytes fuel E = (Ret root, (2 * length E - 1)%nat).
Proof.
  intros Hlen Hfuel.
  assert (Hleafs : length (map (leaf_of H to_bytes) E) = (2 ^ k)%nat)
    by now rewrite length_map.
  pose proof (commit__root H k fuel _ Hleafs Hfuel) as Hc.
  exists (root_of H k (map (leaf_of H to_bytes) E)).
  unfold commit. rewrite leaf_digests_map. cbn [bind].
  rewrite Hc, Hlen. split; [reflexivity |].
  f_equal. pose proof (Nat.pow_nonzero 2 k ltac:(lia)). lia.
Qed.

(** X4. On [n = 2^k >= 2] elements and a valid index, [open] returns its
    path after exactly [2n - 1 - k] invocations of the hash: [n] for the
    leaves and [n - 1 - k], in [open_], for committing the sibling
    subtrees again. *)
Theorem open_cost (k : nat) (E : list elem) (i : Z) (fuel : nat) :
  length E = (2 ^ k)%nat -> 2 <= len E -> 0 <= i < len E -> (k < fuel)%nat ->
  exists path,
    open_ H fuel i (map (leaf_of H to_bytes) E)
    = (Ret path, (length E - 1 - k)%nat) /\
    open H to_bytes fuel i E = (Ret path, (2 * length E - 1 - k)%nat).
Proof.
  intros Hlen H2 Hi Hfuel.
  destruct k as [| k];
    [apply len_pow2 in Hlen; change (2 ^ Z.of_nat 0) with 1 in Hlen; lia |].
  pose proof (len_pow2 E (S k) Hlen) as HlenZ.
  assert (Hleafs : length (map (leaf_of H to_bytes) E) = (2 ^ S k)%nat)
    by now rewrite length_map.
  pose proof (open__path_cost H k fuel i _ Hleafs ltac:(lia) Hfuel) as Ho.
  exists (path_of H (S k) i (map (leaf_of H to_bytes) E)).
  unfold open. rewrite leaf_digests_map. cbn [bind].
  rewrite Ho, Hlen. split; [reflexivity |].
  f_equal. pose proof (pow2_gt_lin (S k)). lia.
Qed.

(** X5. Against an arbitrary root [r], the opening of position [i] of [E]
    (power-of-two length at least 2) and the element [E[i]] verify exactly
    when [r] is [commit(E)]: [verify] returns [r == commit(E)]. *)
Theorem opening_verifies_only_against_commit
        (k : nat) (E : list elem) (i : Z) (fuel : nat) (r : bytes) :
  length E = (2 ^ k)%nat -> 2 <= len E -> 0 <= i < len E -> (k < fuel)%nat ->
  exists root path e,
    fst (commit H to_bytes fuel E) = Ret root /\
    fst (open H to_bytes fuel i E) = Ret path /\
    getitem E i = ret e /\
    fst (verify H to_bytes fuel r i path e) = Ret (bytes_eqb r root) /\
    (bytes_eqb r root = true <-> r = root).
Proof.
  intros Hlen H2 Hi Hfuel.
  destruct k as [| k];
    [apply len_pow2 in Hlen; change (2 ^ Z.of_nat 0) with 1 in Hlen; lia |].
  set (leafs := map (leaf_of H to_bytes) E).
  assert (Hleafs : length leafs = (2 ^ S k)%nat)
    by (unfold leafs; now rewrite length_map).
  pose proof (len_pow2 E (S k) Hlen) as HlenZ.
  destruct (nth_error E (Z.to_nat i)) as [e |] eqn:He;
    [| apply nth_error_None in He; unfold len in Hi; lia].
  exists (root_of H (S k) leafs), (path_of H (S k) i leafs), e.
  split; [rewrite commit_eq; fold leafs;
          now rewrite (commit__root H (S k)) by (assumption || lia) |].
  split; [rewrite open_eq; fold leafs;
          now rewrite (open__path H k) by (assumption || lia) |].
  split; [apply getitem_nth_error; [lia | exact He] |].
  split; [| apply bytes_eqb_eq].
  rewrite verify_eq, verify__climb.
  - cbn [fst]. do 2 f_equal.
    assert (Hleaf : leaf_of H to_bytes e = nth (Z.to_nat i) leafs []).
    { symmetry. apply nth_error_nth. unfold leafs.
      rewrite nth_error_map, He. reflexivity. }
    rewrite Hleaf. apply climb_path_of; [assumption | lia].
  - intros Hnil. apply (f_equal (@length bytes)) in Hnil.
    rewrite length_path_of in Hnil. discriminate.
  - unfold len. rewrite length_path_of. lia.
  - rewrite length_path_of. lia.
Qed.

(** Two inputs with the same digest are equal or form a collision. *)
Lemma same_digest (x y : bytes) : H x = H y -> x = y \/ collision H.
Proof.
  intros Hxy. destruct (list_eq_dec Byte.byte_eq_dec x y) as [Heq | Hne];
    [now left | right; now exists x, y].
Qed.

Lemma verify__same_root (fuel : nat) :
  forall root index path leaf leaf',
    fst (verify_ H fuel root index path leaf) = Ret true ->
    fst (verify_ H fuel root index path leaf') = Ret true ->
    leaf = leaf' \/ collision H.
Proof.
  induction fuel as [| fuel IH]; intros root index path leaf leaf' Hv Hv';
    [discriminate |].
  rewrite verify__S in Hv, Hv'.
  destruct ((0 <=? index) && (index <? Z.shiftl 1 (len path)));
    [| discriminate].
  rewrite bind_assert_true in Hv, Hv'.
  assert (Hfront : forall p0, H (leaf ++ p0) = H (leaf' ++ p0) ->
                              leaf = leaf' \/ collision H).
  { intros p0 Heq. destruct (same_digest _ _ Heq) as [Happ | Hcol];
      [left; now apply app_inv_tail in Happ | now right]. }
  assert (Hback : forall p0, H (p0 ++ leaf) = H (p0 ++ leaf') ->
                             leaf = leaf' \/ collision H).
  { intros p0 Heq. destruct (same_digest _ _ Heq) as [Happ | Hcol];
      [left; now apply app_inv_head in Happ | now right]. }
  destruct (len path =? 1); [destruct (index =? 0) | destruct (index mod 2 =? 0)];
    rewrite fst_bind in Hv, Hv';
    destruct (fst (getitem path 0)) as [p0 | e |]; try discriminate;
    cbn [bind hash ret fst] in Hv, Hv'.
  - injection Hv as Hv. injection Hv' as Hv'.
    apply bytes_eqb_eq in Hv, Hv'. apply (Hfront p0). congruence.
  - injection Hv as Hv. injection Hv' as Hv'.
    apply bytes_eqb_eq in Hv, Hv'. apply (Hback p0). congruence.
  - destruct (verify_ H fuel root (Z.shiftr index 1) (slice_from path 1)
                (H (leaf ++ p0))) as [r n] eqn:E.
    destruct (verify_ H fuel root (Z.shiftr index 1) (slice_from path 1)
                (H (leaf' ++ p0))) as [r' n'] eqn:E'.
    cbn [fst] in Hv, Hv'. subst r r'.
    destruct (IH root (Z.shiftr index 1) (slice_from path 1)
                (H (leaf ++ p0)) (H (leaf' ++ p0))) as [Heq | Hcol];
      [now rewrite E | now rewrite E' | now apply (Hfront p0) | now right].
  - destruct (verify_ H fuel root (Z.shiftr index 1) (slice_from path 1)
                (H (p0 ++ leaf))) as [r n] eqn:E.
    destruct (verify_ H fuel root (Z.shiftr index 1) (slice_from path 1)
                (H (p0 ++ leaf'))) as [r' n'] eqn:E'.
    cbn [fst] in Hv, Hv'. subst r r'.
    destruct (IH root (Z.shiftr index 1) (slice_from path 1)
                (H (p0 ++ leaf)) (H (p0 ++ leaf'))) as [Heq | Hcol];
      [now rewrite E | now rewrite E' | now apply (Hback p0) | now right].
Qed.

(** X6. If [verify] returns true for one root, index and path with two
    elements, the two elements serialize to the same bytes or the run
    exhibits a collision of the hash; likewise [verify_] with two leaf
    digests. *)
Theorem tampered_leaf_needs_collision
        (fuel : nat) (root : bytes) (index : Z) (path : list bytes) :
  (forall leaf leaf' : bytes,
     fst (verify_ H fuel root index path leaf) = Ret true ->
     fst (verify_ H fuel root index path leaf') = Ret true ->
     leaf = leaf' \/ collision H) /\
  (forall e e' : elem,
     fst (verify H to_bytes fuel root index path e) = Ret true ->
     fst (verify H to_bytes fuel root index path e') = Ret true ->
     to_bytes e = to_bytes e' \/ collision H).
Proof.
  split; [intros leaf leaf'; apply verify__same_root |].
  intros e e' Hv Hv'. rewrite verify_eq in Hv, Hv'.
  destruct (verify__same_root fuel _ _ _ _ _ Hv Hv') as [Heq | Hcol];
    [| now right].
  now apply same_digest.
Qed.

(** With an empty path [verify_] returns nothing, whatever the index. *)
Lemma verify__empty_path (fuel : nat) (root : bytes) (index : Z) (leaf : bytes)
      (b : bool) :
  fst (verify_ H fuel root index [] leaf) <> Ret b.
Proof.
  destruct fuel as [| fuel]; [discriminate |].
  rewrite verify__S.
  destruct ((0 <=? index) && (index <? Z.shiftl 1 (len (@nil bytes))));
    [| discriminate].
  rewrite bind_assert_true. change (len (@nil bytes) =? 1) with false.
  cbv iota. destruct (index mod 2 =? 0); discriminate.
Qed.

Lemma app_same_length {A} (a a' b b' : list A) :
  length a = length a' -> a ++ b = a' ++ b' -> a = a' /\ b = b'.
Proof.
  revert a'. induction a as [| x a IH]; intros [| x' a'] Hlen Happ;
    try discriminate; [now split |].
  cbn [app] in Happ. injection Happ as -> Happ.
  destruct (IH a' ltac:(simpl in Hlen; lia) Happ) as [-> ->]. now split.
Qed.

Lemma app_same_length_tail {A} (a a' b b' : list A) :
  length b = length b' -> a ++ b = a' ++ b' -> a = a' /\ b = b'.
Proof.
  intros Hlen Happ. apply app_same_length; [| exact Happ].
  apply (f_equal (@length A)) in Happ. rewrite !length_app in Happ. lia.
Qed.

Lemma verify__binding (fuel : nat) :
  forall (root : bytes) (index : Z) (path path' : list bytes) (leaf leaf' : bytes),
    Forall2 (fun p p' : bytes => length p = length p') path path' ->
    fst (verify_ H fuel root index path leaf) = Ret true ->
    fst (verify_ H fuel root index path' leaf') = Ret true ->
    (leaf = leaf' /\ path = path') \/ collision H.
Proof.
  induction fuel as [| fuel IH];
    intros root index path path' leaf leaf' Hents Hv Hv';
    [discriminate |].
  destruct Hents as [| p0 p0' rest rest' Hp0 Hrest].
  { now apply verify__empty_path in Hv. }
  rewrite verify__S in Hv, Hv'.
  assert (Hlens : @len bytes (p0 :: rest) = @len bytes (p0' :: rest')).
  { unfold len. cbn [length]. do 2 apply f_equal.
    exact (Forall2_length Hrest). }
  rewrite <- Hlens in Hv'.
  destruct ((0 <=? index) && (index <? Z.shiftl 1 (@len bytes (p0 :: rest))));
    [| discriminate].
  rewrite bind_assert_true in Hv, Hv'.
  rewrite !getitem_head, !slice_from_1 in Hv, Hv'.
  assert (Hfront : H (leaf ++ p0) = H (leaf' ++ p0') ->
                   (leaf = leaf' /\ p0 = p0') \/ collision H).
  { intros Heq. destruct (same_digest _ _ Heq) as [Happ | Hcol]; [left | now right].
    now apply app_same_length_tail in Happ. }
  assert (Hback : H (p0 ++ leaf) = H (p0' ++ leaf') ->
                  (leaf = leaf' /\ p0 = p0') \/ collision H).
  { intros Heq. destruct (same_digest _ _ Heq) as [Happ | Hcol]; [left | now right].
    apply app_same_length in Happ; [now destruct Happ | exact Hp0]. }
  destruct (Z.eqb_spec (@len bytes (p0 :: rest)) 1) as [H1 | H1].
  - assert (rest = []) by (rewrite len_cons in H1; unfold len in H1;
                           destruct rest; [reflexivity | simpl in H1; lia]).
    subst rest. inversion Hrest; subst.
    destruct (index =? 0); rewrite !bind_ret_l in Hv, Hv';
      cbn [bind hash ret fst] in Hv, Hv';
      injection Hv as Hv; injection Hv' as Hv';
      apply bytes_eqb_eq in Hv, Hv';
      [destruct Hfront as [[-> ->] | Hcol] | destruct Hback as [[-> ->] | Hcol]];
      try congruence; (now left) || (now right).
  - destruct (index mod 2 =? 0); rewrite !bind_ret_l in Hv, Hv';
      cbn [bind hash] in Hv, Hv'.
    + destruct (verify_ H fuel root (Z.shiftr index 1) rest (H (leaf ++ p0)))
        as [r n] eqn:E.
      destruct (verify_ H fuel root (Z.shiftr index 1) rest' (H (leaf' ++ p0')))
        as [r' n'] eqn:E'.
      cbn [fst] in Hv, Hv'. subst r r'.
      destruct (IH root (Z.shiftr index 1) rest rest'
                  (H (leaf ++ p0)) (H (leaf' ++ p0')) Hrest)
        as [[Hnode Hpath] | Hcol];
        try (now rewrite E); try (now rewrite E'); [| now right].
      destruct (Hfront Hnode) as [[-> ->] | Hcol]; [left | now right].
      now subst.
    + destruct (verify_ H fuel root (Z.shiftr index 1) rest (H (p0 ++ leaf)))
        as [r n] eqn:E.
      destruct (verify_ H fuel root (Z.shiftr index 1) rest' (H (p0' ++ leaf')))
        as [r' n'] eqn:E'.
      cbn [fst] in Hv, Hv'. subst r r'.
      destruct (IH root (Z.shiftr index 1) rest rest'
                  (H (p0 ++ leaf)) (H (p0' ++ leaf')) Hrest)
        as [[Hnode Hpath] | Hcol];
        try (now rewrite E); try (now rewrite E'); [| now right].
      destruct (Hback Hnode) as [[-> ->] | Hcol]; [left | now right].
      now subst.
Qed.

(** X7. Position binding, with no assumption on the hash.  Let two paths
    whose corresponding entries have the same number of bytes (as any two
    paths of digests of one size and one length have) both make [verify]
    return true for one root and one index.  Then the two elements
    serialize alike and the two paths are equal, or the hash has a
    collision.  The same holds of [verify_] with two leaf digests. *)
Theorem opening_is_binding
        (fuel : nat) (root : bytes) (index : Z) (path path' : list bytes) :
  Forall2 (fun p p' : bytes => length p = length p') path path' ->
  (forall leaf leaf' : bytes,
     fst (verify_ H fuel root index path leaf) = Ret true ->
     fst (verify_ H fuel root index path' leaf') = Ret true ->
     (leaf = leaf' /\ path = path') \/ collision H) /\
  (forall e e' : elem,
     fst (verify H to_bytes fuel root index path e) = Ret true ->
     fst (verify H to_bytes fuel root index path' e') = Ret true ->
     (to_bytes e = to_bytes e' /\ path = path') \/ collision H).
Proof.
  intros Hents. split.
  - intros leaf leaf'. now apply verify__binding.
  - intros e e' Hv Hv'. rewrite verify_eq in Hv, Hv'.
    destruct (verify__binding fuel root index path path'
                (leaf_of H to_bytes e) (leaf_of H to_bytes e') Hents Hv Hv')
      as [[Hleaf Hpath] | Hcol]; [| now right].
    destruct (same_digest _ _ Hleaf) as [Heq | Hcol]; [left | now right].
    now split.
Qed.

Lemma getitem_in_range {A} (l : list A) (i : Z) :
  0 <= i < len l -> exists x, getitem l i = ret x.
Proof.
  intros Hi. destruct (nth_error l (Z.to_nat i)) as [x |] eqn:Hx.
  - exists x. apply getitem_nth_error; [lia | exact Hx].
  - apply nth_error_None in Hx. unfold len in Hi. lia.
Qed.

(** Both halves of a sequence that passes the length guard pass it too. *)
Lemma guard_halves (leafs : list bytes) :
  power_of_two_guard (len leafs) = true -> len leafs <> 1 ->
  power_of_two_guard (len (slice_to leafs (len leafs / 2))) = true /\
  power_of_two_guard (len (slice_from leafs (len leafs / 2))) = true.
Proof.
  intros Hg H1. destruct leafs as [| x leafs']; [split; reflexivity |].
  set (leafs := x :: leafs') in *.
  assert (Hpos : 0 < len leafs)
    by (unfold leafs; rewrite len_cons; pose proof (len_nonneg leafs'); lia).
  destruct (guard_sound _ Hpos Hg) as [[| k] Hk];
    [change (2 ^ Z.of_nat 0) with 1 in Hk; lia |].
  assert (Hlen : length leafs = (2 ^ S k)%nat).
  { apply Nat2Z.inj. rewrite Nat2Z.inj_pow. exact Hk. }
  rewrite (slice_to_half leafs k Hlen), (slice_from_half leafs k Hlen).
  rewrite (len_pow2 _ k (length_left_half leafs k Hlen)).
  rewrite (len_pow2 _ k (length_right_half leafs k Hlen)).
  split; apply guard_pow2.
Qed.

Lemma commit__raises (fuel : nat) :
  forall leafs e,
    fst (commit_ H fuel leafs) = Raise e ->
    e = AssertionError "length must be power of two" /\
    power_of_two_guard (len leafs) = false.
Proof.
  induction fuel as [| fuel IH]; intros leafs e Hr; [discriminate |].
  rewrite commit__S in Hr.
  destruct (power_of_two_guard (len leafs)) eqn:Hg;
    [| injection Hr as <-; now split].
  exfalso. rewrite bind_assert_true in Hr.
  destruct (Z.eqb_spec (len leafs) 1) as [H1 | H1].
  - destruct (getitem_in_range leafs 0 ltac:(lia)) as [x Hx].
    now rewrite Hx in Hr.
  - destruct (guard_halves leafs Hg H1) as [HgL HgR].
    rewrite fst_bind in Hr.
    destruct (fst (commit_ H fuel (slice_to leafs (len leafs / 2))))
      as [l | e' |] eqn:El; try discriminate.
    + rewrite fst_bind in Hr.
      destruct (fst (commit_ H fuel (slice_from leafs (len leafs / 2))))
        as [r | e' |] eqn:Er; try discriminate.
      apply IH in Er. destruct Er as [_ Er]. congruence.
    + apply IH in El. destruct El as [_ El]. congruence.
Qed.

Lemma open__raises (fuel : nat) :
  forall index leafs e,
    fst (open_ H fuel index leafs) = Raise e ->
    e = AssertionError "length must be power of two" \/
    e = AssertionError "cannot open invalid index".
Proof.
  induction fuel as [| fuel IH]; intros index leafs e Hr; [discriminate |].
  rewrite open__S in Hr.
  destruct (power_of_two_guard (len leafs));
    [| injection Hr as <-; now left].
  rewrite bind_assert_true in Hr.
  destruct (Z.leb_spec 0 index); [| injection Hr as <-; now right].
  destruct (Z.ltb_spec index (len leafs)); [| injection Hr as <-; now right].
  cbn [andb] in Hr. rewrite bind_assert_true in Hr.
  destruct (Z.eqb_spec (len leafs) 2) as [H2 | H2].
  - destruct (getitem_in_range leafs (1 - index) ltac:(lia)) as [x Hx].
    now rewrite Hx in Hr.
  - destruct (2 * index <? len leafs); rewrite fst_bind in Hr.
    + destruct (fst (open_ H fuel index (slice_to leafs (len leafs / 2))))
        as [p | e' |] eqn:Eo; try discriminate.
      * rewrite fst_bind in Hr.
        destruct (fst (commit_ H fuel (slice_from leafs (len leafs / 2))))
          as [c | e' |] eqn:Ec; try discriminate.
        injection Hr as <-. left. now apply commit__raises in Ec.
      * injection Hr as <-. now apply IH in Eo.
    + destruct (fst (open_ H fuel (index - len leafs / 2)
                       (slice_from leafs (len leafs / 2))))
        as [p | e' |] eqn:Eo; try discriminate.
      * rewrite fst_bind in Hr.
        destruct (fst (commit_ H fuel (slice_to leafs (len leafs / 2))))
          as [c | e' |] eqn:Ec; try discriminate.
        injection Hr as <-. left. now apply commit__raises in Ec.
      * injection Hr as <-. now apply IH in Eo.
Qed.

Lemma verify__raises (fuel : nat) :
  forall root index (path : list bytes) leaf e,
    fst (verify_ H fuel root index path leaf) = Raise e ->
    e = AssertionError "cannot verify invalid index" \/
    (e = IndexError /\ path = []).
Proof.
  induction fuel as [| fuel IH]; intros root index path leaf e Hr;
    [discriminate |].
  destruct path as [| p0 rest].
  - rewrite verify__S in Hr.
    destruct ((0 <=? index) && (index <? Z.shiftl 1 (len (@nil bytes))));
      [| injection Hr as <-; now left].
    rewrite bind_assert_true in Hr. change (len (@nil bytes) =? 1) with false in Hr.
    cbv iota in Hr.
    destruct (index mod 2 =? 0); injection Hr as <-; now right.
  - left. rewrite verify__S in Hr.
    destruct ((0 <=? index) && (index <? Z.shiftl 1 (@len bytes (p0 :: rest))));
      [| now injection Hr as <-].
    rewrite bind_assert_true, !getitem_head, !slice_from_1 in Hr.
    destruct (Z.eqb_spec (@len bytes (p0 :: rest)) 1) as [H1 | H1].
    + destruct (index =? 0); discriminate.
    + assert (Hrest : rest <> [])
        by (intros ->; now change (@len bytes [p0]) with 1 in H1).
      destruct (index mod 2 =? 0); rewrite bind_ret_l in Hr;
        cbn [bind hash] in Hr;
        match type of Hr with
        | fst (let (_, _) := ?v in _) = _ =>
            destruct v as [r n] eqn:Ev; cbn [fst] in Hr; subst r
        end;
        (destruct (IH _ _ _ _ _ ltac:(now rewrite Ev)) as [He | [_ Hnil]];
         [exact He | contradiction]).
Qed.

(** A sequence that passes the length guard is empty or has a power-of-two
    length whose exponent is below the length. *)
Lemma guard_length (leafs : list bytes) :
  power_of_two_guard (len leafs) = true ->
  leafs = [] \/ exists k, length leafs = (2 ^ k)%nat /\ (k < length leafs)%nat.
Proof.
  intros Hg. destruct leafs as [| x leafs']; [now left | right].
  set (leafs := x :: leafs') in *.
  assert (Hpos : 0 < len leafs)
    by (unfold leafs; rewrite len_cons; pose proof (len_nonneg leafs'); lia).
  destruct (guard_sound _ Hpos Hg) as [k Hk].
  assert (Hlen : length leafs = (2 ^ k)%nat)
    by (apply Nat2Z.inj; rewrite Nat2Z.inj_pow; exact Hk).
  exists k. split; [exact Hlen |]. rewrite Hlen. apply pow2_gt_lin.
Qed.

(** X9. With a budget above the length of the sequence (of the path),
    [open_] and [verify_] finish on every input whatsoever, and [commit_]
    finishes exactly on the non-empty sequences. *)
Theorem finishes_on_every_input (fuel : nat) :
  (forall index leafs,
     (length leafs < fuel)%nat -> terminates (open_ H fuel index leafs)) /\
  (forall root index (path : list bytes) leaf,
     (length path < fuel)%nat ->
     terminates (verify_ H fuel root index path leaf)) /\
  (forall leafs,
     (length leafs < fuel)%nat ->
     (terminates (commit_ H fuel leafs) <-> leafs <> [])).
Proof.
  unfold terminates. repeat apply conj.
  - intros index leafs Hfuel. destruct fuel as [| fuel']; [lia |].
    destruct (power_of_two_guard (len leafs)) eqn:Hg;
      [| rewrite open__rejects_length by exact Hg; discriminate].
    destruct (Z.le_gt_cases 0 index) as [Hlo |];
      [destruct (Z.lt_ge_cases index (len leafs)) as [Hhi |] |];
      try (rewrite open__rejects_index by lia; discriminate).
    destruct (guard_length leafs Hg) as [-> | [k [Hlen Hk]]];
      [rewrite open__nil; discriminate |].
    pose proof (len_pow2 leafs k Hlen) as HlenZ.
    destruct k as [| k].
    + destruct leafs as [| d [| d' rest]]; try discriminate.
      change (len [d]) with 1 in Hhi. replace index with 0 by lia.
      destruct fuel' as [| fuel']; [simpl in Hfuel; lia |].
      rewrite open__single. discriminate.
    + rewrite (open__path H k) by (assumption || lia). discriminate.
  - intros root index path leaf Hfuel. destruct fuel as [| fuel']; [lia |].
    destruct (Z.le_gt_cases 0 index) as [Hlo |];
      [destruct (Z.lt_ge_cases index (2 ^ len path)) as [Hhi |] |];
      try (rewrite verify__rejects_index by lia; discriminate).
    destruct path as [| p0 rest].
    + change (2 ^ len (@nil bytes)) with 1 in Hhi. replace index with 0 by lia.
      rewrite verify__nil. discriminate.
    + rewrite verify__climb by (discriminate || assumption || lia).
      discriminate.
  - intros leafs Hfuel. split.
    + intros Hfin ->. now rewrite commit__nil in Hfin.
    + intros Hne. destruct fuel as [| fuel']; [lia |].
      destruct (power_of_two_guard (len leafs)) eqn:Hg;
        [| rewrite commit__rejects_length by exact Hg; discriminate].
      destruct (guard_length leafs Hg) as [-> | [k [Hlen Hk]]]; [congruence |].
      rewrite (commit__root H k) by (assumption || lia). discriminate.
Qed.

Lemma commit__within_budget (fuel : nat) (leafs : list bytes) :
  leafs <> [] -> (length leafs < fuel)%nat ->
  fst (commit_ H fuel leafs) <> OutOfFuel.
Proof.
  intros Hne Hfuel. destruct fuel as [| fuel']; [lia |].
  destruct (power_of_two_guard (len leafs)) eqn:Hg;
    [| rewrite commit__rejects_length by exact Hg; discriminate].
  destruct (guard_length leafs Hg) as [-> | [k [Hlen Hk]]]; [congruence |].
  rewrite (commit__root H k) by (assumption || lia). discriminate.
Qed.

Lemma open__within_budget (fuel : nat) (index : Z) (leafs : list bytes) :
  (length leafs < fuel)%nat -> fst (open_ H fuel index leafs) <> OutOfFuel.
Proof.
  intros Hfuel. destruct fuel as [| fuel']; [lia |].
  destruct (power_of_two_guard (len leafs)) eqn:Hg;
    [| rewrite open__rejects_length by exact Hg; discriminate].
  destruct (Z.le_gt_cases 0 index) as [Hlo |];
    [destruct (Z.lt_ge_cases index (len leafs)) as [Hhi |] |];
    try (rewrite open__rejects_index by lia; discriminate).
  destruct (guard_length leafs Hg) as [-> | [k [Hlen Hk]]];
    [rewrite open__nil; discriminate |].
  pose proof (len_pow2 leafs k Hlen) as HlenZ.
  destruct k as [| k].
  - destruct leafs as [| d [| d' rest]]; try discriminate.
    change (len [d]) with 1 in Hhi. replace index with 0 by lia.
    destruct fuel' as [| fuel']; [simpl in Hfuel; lia |].
    rewrite open__single. discriminate.
  - rewrite (open__path H k) by (assumption || lia). discriminate.
Qed.

Lemma verify__within_budget (fuel : nat) (root : bytes) (index : Z)
      (path : list bytes) (leaf : bytes) :
  (length path < fuel)%nat ->
  fst (verify_ H fuel root index path leaf) <> OutOfFuel.
Proof.
  intros Hfuel. destruct fuel as [| fuel']; [lia |].
  destruct (Z.le_gt_cases 0 index) as [Hlo |];
    [destruct (Z.lt_ge_cases index (2 ^ len path)) as [Hhi |] |];
    try (rewrite verify__rejects_index by lia; discriminate).
  destruct path as [| p0 rest].
  - change (2 ^ len (@nil bytes)) with 1 in Hhi. replace index with 0 by lia.
    rewrite verify__nil. discriminate.
  - rewrite verify__climb by (discriminate || assumption || lia).
    discriminate.
Qed.

(** X8. Every way the three functions fail.  Using up the budget of nested
    calls (a RecursionError in CPython) happens to [commit_] on the empty
    sequence, with every budget; with a budget above the length of the
    sequence (of the path) it happens to no other call of [commit_], and
    to no call of [open_] or [verify_].  Apart from that, [commit_] raises
    nothing but the AssertionError of its length guard, and only when the
    guard fails on the sequence it was called with; [open_] raises nothing
    but the AssertionErrors of its two guards; [verify_] raises nothing
    but the AssertionError of its index guard, or IndexError when called
    with an empty path.  In particular [commit_] and [open_] never raise
    IndexError. *)
Theorem only_guard_exceptions (fuel : nat) :
  (forall fuel', fst (commit_ H fuel' []) = OutOfFuel) /\
  (forall leafs,
     (length leafs < fuel)%nat ->
     fst (commit_ H fuel leafs) = OutOfFuel -> leafs = []) /\
  (forall index leafs,
     (length leafs < fuel)%nat -> fst (open_ H fuel index leafs) <> OutOfFuel) /\
  (forall root index (path : list bytes) leaf,
     (length path < fuel)%nat ->
     fst (verify_ H fuel root index path leaf) <> OutOfFuel) /\
  (forall leafs e,
     fst (commit_ H fuel leafs) = Raise e ->
     e = AssertionError "length must be power of two" /\
     power_of_two_guard (len leafs) = false) /\
  (forall index leafs e,
     fst (open_ H fuel index leafs) = Raise e ->
     e = AssertionError "length must be power of two" \/
     e = AssertionError "cannot open invalid index") /\
  (forall root index (path : list bytes) leaf e,
     fst (verify_ H fuel root index path leaf) = Raise e ->
     e = AssertionError "cannot verify invalid index" \/
     (e = IndexError /\ path = [])).
Proof.
  split; [intros fuel'; now rewrite commit__nil |].
  split.
  { intros leafs Hfuel Hout. destruct leafs as [| d rest]; [reflexivity |].
    exfalso. now apply (commit__within_budget fuel (d :: rest)). }
  split; [intros; now apply open__within_budget |].
  split; [intros; now apply verify__within_budget |].
  split; [apply commit__raises |].
  split; [apply open__raises | apply verify__raises].
Qed.

Lemma sibling_range (q m : Z) : 0 <= q < 2 * m -> 0 <= sibling q < 2 * m.
Proof.
  intros Hq. unfold sibling. destruct (Z.even q) eqn:He.
  - apply Z.even_spec in He. destruct He as [r ->]. lia.
  - assert (q <> 0) by (intros ->; discriminate). lia.
Qed.

Lemma sibling_shift (q m : Z) : sibling (q + 2 * m) = sibling q + 2 * m.
Proof. unfold sibling. rewrite Z.even_add_mul_2. destruct (Z.even q); lia. Qed.

Lemma pow2_split (k j : nat) :
  (j <= k)%nat -> 2 ^ Z.of_nat k = 2 ^ Z.of_nat (k - j) * 2 ^ Z.of_nat j.
Proof.
  intros Hjk. rewrite <- Z.pow_add_r by lia. f_equal. lia.
Qed.

Lemma pow2_nat (j : nat) : Z.to_nat (2 ^ Z.of_nat j) = (2 ^ j)%nat.
Proof. rewrite <- Nat2Z.inj_pow with (n := 2%nat). apply Nat2Z.id. Qed.

(** Entry [j] of the reference path is the root of the block of [2 ^ j]
    digests next to the block that holds position [i]. *)
Lemma path_of_entry (k : nat) :
  forall i l j,
    length l = (2 ^ k)%nat -> 0 <= i < 2 ^ Z.of_nat k -> (j < k)%nat ->
    nth j (path_of H k i l) []
    = root_of H j
        (firstn (2 ^ j)
           (skipn (Z.to_nat (sibling (i / 2 ^ Z.of_nat j) * 2 ^ Z.of_nat j)) l)).
Proof.
  induction k as [| k IH]; intros i l j Hlen Hi Hj; [lia |].
  pose proof (pow2_pos k) as Hpk. pose proof (pow2_pos j) as Hpj.
  pose proof (length_left_half l k Hlen) as HL.
  pose proof (length_right_half l k Hlen) as HR.
  rewrite pow2_succ in Hi.
  cbn [path_of].
  destruct (Nat.eq_dec j k) as [-> | Hjk].
  - (* the last entry: the other half *)
    destruct (Z.ltb_spec i (2 ^ Z.of_nat k)) as [Hlt | Hge].
    + rewrite <- (length_path_of H k i (firstn (2 ^ k) l)) at 1.
      rewrite nth_middle.
      rewrite Z.div_small by lia. change (sibling 0) with 1.
      rewrite Z.mul_1_l, pow2_nat.
      rewrite firstn_all2 by lia. reflexivity.
    + rewrite <- (length_path_of H k (i - 2 ^ Z.of_nat k) (skipn (2 ^ k) l)) at 1.
      rewrite nth_middle.
      replace (i / 2 ^ Z.of_nat k) with 1
        by (apply Z.div_unique with (r := i - 2 ^ Z.of_nat k); lia).
      change (sibling 1) with 0. rewrite Z.mul_0_l. reflexivity.
  - (* an earlier entry: inside the half that holds [i] *)
    assert (Hjk' : (j < k)%nat) by lia.
    pose proof (pow2_split k j ltac:(lia)) as Hsplit.
    assert (Hm : 2 ^ Z.of_nat (k - j) = 2 * 2 ^ Z.of_nat (k - j - 1)).
    { replace (k - j)%nat with (S (k - j - 1)) at 1 by lia. apply pow2_succ. }
    pose proof (pow2_pos (k - j - 1)) as Hpm.
    set (m := 2 ^ Z.of_nat (k - j - 1)) in *.
    set (P := 2 ^ Z.of_nat j) in *.
    destruct (Z.ltb_spec i (2 ^ Z.of_nat k)) as [Hlt | Hge].
    + rewrite app_nth1 by (rewrite length_path_of; lia).
      rewrite (IH i _ j HL ltac:(lia) Hjk'). fold P. f_equal.
      assert (Hq : 0 <= i / P < 2 * m).
      { split; [apply Z.div_pos; lia |].
        apply Z.div_lt_upper_bound; [lia |]. rewrite Z.mul_comm. lia. }
      pose proof (sibling_range _ _ Hq) as Hs.
      set (s := sibling (i / P)) in *.
      assert (Hoff : 0 <= s * P /\ s * P + P <= 2 ^ Z.of_nat k) by nia.
      rewrite skipn_firstn_comm, firstn_firstn.
      f_equal. apply Nat.min_l.
      assert (Z.of_nat (2 ^ k) = 2 ^ Z.of_nat k) by now rewrite Nat2Z.inj_pow.
      assert (Z.of_nat (2 ^ j) = P) by (unfold P; now rewrite Nat2Z.inj_pow).
      lia.
    + rewrite app_nth1 by (rewrite length_path_of; lia).
      rewrite (IH (i - 2 ^ Z.of_nat k) _ j HR ltac:(lia) Hjk'). fold P. f_equal.
      assert (Hdiv : (i - 2 ^ Z.of_nat k) / P = i / P - 2 * m).
      { rewrite Hsplit, Hm.
        replace (i - 2 * m * P) with (i + (- (2 * m)) * P) by lia.
        rewrite Z.div_add by lia. lia. }
      assert (Hq : 0 <= (i - 2 ^ Z.of_nat k) / P < 2 * m).
      { split; [apply Z.div_pos; lia |].
        apply Z.div_lt_upper_bound; [lia |]. rewrite Z.mul_comm. lia. }
      pose proof (sibling_range _ _ Hq) as Hs.
      assert (Hsib : sibling (i / P) = sibling ((i - 2 ^ Z.of_nat k) / P) + 2 * m).
      { rewrite <- sibling_shift. f_equal. lia. }
      set (s' := sibling ((i - 2 ^ Z.of_nat k) / P)) in *.
      rewrite skipn_skipn. f_equal. f_equal.
      assert (Z.of_nat (2 ^ k) = 2 ^ Z.of_nat k) by now rewrite Nat2Z.inj_pow.
      rewrite Hsib. nia.
Qed.

Lemma slice_from_skipn {A} (l : list A) (a : Z) :
  0 <= a <= len l -> slice_from l a = skipn (Z.to_nat a) l.
Proof.
  intros Ha. unfold slice_from, clamp.
  destruct (Z.ltb_spec a 0); [lia |]. now rewrite Z.min_r by lia.
Qed.

Lemma slice_to_firstn {A} (l : list A) (h : Z) :
  0 <= h <= len l -> slice_to l h = firstn (Z.to_nat h) l.
Proof.
  intros Hh. unfold slice_to, clamp.
  destruct (Z.ltb_spec h 0); [lia |]. now rewrite Z.min_r by lia.
Qed.

Lemma clamp_map {A B} (f : A -> B) (l : list A) (h : Z) :
  clamp (map f l) h = clamp l h.
Proof. unfold clamp, len. now rewrite length_map. Qed.

Lemma slice_map {A B} (f : A -> B) (l : list A) (a h : Z) :
  map f (slice_to (slice_from l a) h)
  = slice_to (slice_from (map f l) a) h.
Proof.
  unfold slice_to, slice_from.
  rewrite clamp_map, skipn_map, clamp_map, firstn_map. reflexivity.
Qed.

(** The block of [2 ^ j] positions next to the one that holds [i] lies
    inside a sequence of [2 ^ k] positions, for [j < k]. *)
Lemma sibling_block_range (k j : nat) (i : Z) :
  (j < k)%nat -> 0 <= i < 2 ^ Z.of_nat k ->
  0 <= sibling (i / 2 ^ Z.of_nat j) * 2 ^ Z.of_nat j /\
  sibling (i / 2 ^ Z.of_nat j) * 2 ^ Z.of_nat j + 2 ^ Z.of_nat j
  <= 2 ^ Z.of_nat k.
Proof.
  intros Hj Hi. pose proof (pow2_pos j) as Hpj.
  pose proof (pow2_split k j ltac:(lia)) as Hsplit.
  assert (Hm : 2 ^ Z.of_nat (k - j) = 2 * 2 ^ Z.of_nat (k - j - 1)).
  { replace (k - j)%nat with (S (k - j - 1)) at 1 by lia. apply pow2_succ. }
  pose proof (pow2_pos (k - j - 1)) as Hpm.
  set (m := 2 ^ Z.of_nat (k - j - 1)) in *.
  set (P := 2 ^ Z.of_nat j) in *.
  assert (Hq : 0 <= i / P < 2 * m).
  { split; [apply Z.div_pos; lia |].
    apply Z.div_lt_upper_bound; [lia |]. rewrite Z.mul_comm. lia. }
  pose proof (sibling_range _ _ Hq) as Hs. nia.
Qed.

Lemma open__entry (k : nat) (leafs : list bytes) (i : Z) (fuel j : nat) :
  length leafs = (2 ^ k)%nat -> 0 <= i < len leafs ->
  (k < fuel)%nat -> (j < k)%nat ->
  exists path d,
    fst (open_ H fuel i leafs) = Ret path /\
    length path = k /\
    nth_error path j = Some d /\
    fst (commit_ H fuel
           (slice_to (slice_from leafs
                        (sibling (i / 2 ^ Z.of_nat j) * 2 ^ Z.of_nat j))
                     (2 ^ Z.of_nat j))) = Ret d.
Proof.
  intros Hlen Hi Hfuel Hj.
  pose proof (len_pow2 leafs k Hlen) as HlenZ. rewrite HlenZ in Hi.
  destruct (sibling_block_range k j i Hj Hi) as [Hlo Hhi].
  pose proof (pow2_pos j) as Hpj.
  set (off := sibling (i / 2 ^ Z.of_nat j) * 2 ^ Z.of_nat j) in *.
  exists (path_of H k i leafs), (nth j (path_of H k i leafs) []).
  split; [destruct k as [| k']; [lia |];
          apply (open__path H k'); assumption || lia |].
  split; [apply length_path_of |].
  split; [apply nth_error_nth'; rewrite length_path_of; exact Hj |].
  rewrite slice_from_skipn by lia.
  assert (Hskip : len (skipn (Z.to_nat off) leafs) = 2 ^ Z.of_nat k - off)
    by (unfold len in *; rewrite length_skipn; lia).
  rewrite slice_to_firstn by lia. rewrite pow2_nat.
  rewrite (commit__root H j); [| | lia].
  - cbn [fst]. f_equal. symmetry. now apply path_of_entry.
  - rewrite length_firstn, length_skipn. apply Nat.min_l.
    assert (Z.of_nat (2 ^ j) = 2 ^ Z.of_nat j) by now rewrite Nat2Z.inj_pow.
    unfold len in HlenZ. lia.
Qed.

(** X10. Entry [j] of the path that [open] returns for position [i] is the
    commitment of the block of [2^j] elements next to the block that holds
    [i]: [commit(E[s * 2^j : (s + 1) * 2^j])] with [s = (i >> j) ^ 1].
    The same holds of [open_] and [commit_] on digests.  Entry 0 is the
    neighbouring leaf, the last entry the root of the other half. *)
Theorem path_entry_is_sibling_commit (k : nat) (i : Z) (fuel j : nat) :
  (k < fuel)%nat -> (j < k)%nat ->
  (forall leafs : list bytes,
     length leafs = (2 ^ k)%nat -> 0 <= i < len leafs ->
     exists path d,
       fst (open_ H fuel i leafs) = Ret path /\
       length path = k /\
       nth_error path j = Some d /\
       fst (commit_ H fuel
              (slice_to (slice_from leafs
                           (sibling (i / 2 ^ Z.of_nat j) * 2 ^ Z.of_nat j))
                        (2 ^ Z.of_nat j))) = Ret d) /\
  (forall E : list elem,
     length E = (2 ^ k)%nat -> 0 <= i < len E ->
     exists path d,
       fst (open H to_bytes fuel i E) = Ret path /\
       length path = k /\
       nth_error path j = Some d /\
       fst (commit H to_bytes fuel
              (slice_to (slice_from E
                           (sibling (i / 2 ^ Z.of_nat j) * 2 ^ Z.of_nat j))
                        (2 ^ Z.of_nat j))) = Ret d).
Proof.
  intros Hfuel Hj. split.
  - intros leafs Hlen Hi. now apply open__entry.
  - intros E Hlen Hi.
    assert (Hleafs : length (map (leaf_of H to_bytes) E) = (2 ^ k)%nat)
      by now rewrite length_map.
    assert (Hi' : 0 <= i < len (map (leaf_of H to_bytes) E))
      by (unfold len in *; now rewrite length_map).
    destruct (open__entry k _ i fuel j Hleafs Hi' Hfuel Hj)
      as (path & d & Ho & Hl & Hn & Hc).
    exists path, d. rewrite open_eq, commit_eq, slice_map. now repeat split.
Qed.

(** The block index [sibling q] is [q ^ 1]. *)
Lemma sibling_lxor (q : Z) : 0 <= q -> sibling q = Z.lxor q 1.
Proof. intros Hq. destruct q as [| [p | p |] | p]; try reflexivity; lia. Qed.

(** The reference path of position [i] does not mention the digest at
    position [i]. *)
Lemma path_of_ext (k : nat) :
  forall i (l l' : list bytes),
    length l = (2 ^ k)%nat -> length l' = (2 ^ k)%nat ->
    0 <= i < 2 ^ Z.of_nat k ->
    (forall n, n <> Z.to_nat i -> nth_error l n = nth_error l' n) ->
    path_of H k i l = path_of H k i l'.
Proof.
  induction k as [| k IH]; intros i l l' Hlen Hlen' Hi Hagree; [reflexivity |].
  rewrite pow2_succ in Hi. pose proof (pow2_pos k) as Hp.
  assert (Hk : Z.of_nat (2 ^ k) = 2 ^ Z.of_nat k) by now rewrite Nat2Z.inj_pow.
  cbn [path_of].
  destruct (Z.ltb_spec i (2 ^ Z.of_nat k)) as [Hlt | Hge].
  - assert (HR : skipn (2 ^ k) l = skipn (2 ^ k) l').
    { apply nth_error_ext. intros n. rewrite !nth_error_skipn.
      apply Hagree. lia. }
    rewrite HR. f_equal.
    apply IH; try (now apply length_left_half); [lia |].
    intros n Hn. rewrite !nth_error_firstn.
    destruct (n <? 2 ^ k)%nat; [now apply Hagree | reflexivity].
  - assert (HL : firstn (2 ^ k) l = firstn (2 ^ k) l').
    { apply nth_error_ext. intros n. rewrite !nth_error_firstn.
      destruct (Nat.ltb_spec n (2 ^ k)); [| reflexivity].
      apply Hagree. lia. }
    rewrite HL. f_equal.
    apply IH; try (now apply length_right_half); [lia |].
    intros n Hn. rewrite !nth_error_skipn. apply Hagree. lia.
Qed.

(** X11. The path of a position does not depend on the element at that
    position: two sequences of the same power-of-two length (at least 2)
    that agree everywhere except at [i] have the same [open(i, .)]; the
    same holds of [open_] on digests. *)
Theorem path_ignores_opened_element (k : nat) (i : Z) (fuel : nat) :
  (k < fuel)%nat ->
  (forall leafs leafs' : list bytes,
     length leafs = (2 ^ k)%nat -> length leafs' = (2 ^ k)%nat ->
     2 <= len leafs -> 0 <= i < len leafs ->
     (forall n, n <> Z.to_nat i -> nth_error leafs n = nth_error leafs' n) ->
     exists path,
       fst (open_ H fuel i leafs) = Ret path /\
       fst (open_ H fuel i leafs') = Ret path) /\
  (forall E E' : list elem,
     length E = (2 ^ k)%nat -> length E' = (2 ^ k)%nat ->
     2 <= len E -> 0 <= i < len E ->
     (forall n, n <> Z.to_nat i -> nth_error E n = nth_error E' n) ->
     exists path,
       fst (open H to_bytes fuel i E) = Ret path /\
       fst (open H to_bytes fuel i E') = Ret path).
Proof.
  intros Hfuel.
  assert (Hworker : forall leafs leafs' : list bytes,
             length leafs = (2 ^ k)%nat -> length leafs' = (2 ^ k)%nat ->
             2 <= len leafs -> 0 <= i < len leafs ->
             (forall n, n <> Z.to_nat i -> nth_error leafs n = nth_error leafs' n) ->
             exists path,
               fst (open_ H fuel i leafs) = Ret path /\
               fst (open_ H fuel i leafs') = Ret path).
  { intros leafs leafs' Hlen Hlen' H2 Hi Hagree.
    pose proof (len_pow2 leafs k Hlen) as HlenZ.
    destruct k as [| k'];
      [change (2 ^ Z.of_nat 0) with 1 in HlenZ; lia |].
    exists (path_of H (S k') i leafs). split.
    - apply (open__path H k'); assumption || lia.
    - rewrite (path_of_ext (S k') i leafs leafs') by (assumption || lia).
      apply (open__path H k'); assumption || lia. }
  split; [exact Hworker |].
  intros E E' Hlen Hlen' H2 Hi Hagree. rewrite !open_eq.
  apply Hworker; try (now rewrite length_map);
    try (unfold len in *; now rewrite length_map).
  intros n Hn. rewrite !nth_error_map. now rewrite (Hagree n Hn).
Qed.

End Further.

(** ** The further properties at the sample instance *)

(** Byte reversal is injective, so at the sample hash the collision
    alternative of the binding properties is excluded. *)
Lemma sample_hash_no_collision : ~ collision sample_hash.
Proof.
  intros (x & y & Hne & Heq). apply Hne. unfold sample_hash in Heq.
  rewrite <- (rev_involutive x), <- (rev_involutive y). now rewrite Heq.
Qed.

Lemma three_not_power_of_two (k : nat) : 3 <> 2 ^ Z.of_nat k.
Proof.
  destruct k as [| [| k]]; [discriminate | discriminate |].
  rewrite !pow2_succ. pose proof (pow2_pos k). lia.
Qed.

Lemma length_guard_rejects_witness :
  0 < len [sample_a; sample_b; sample_c] /\
  commit_ sample_hash 1 [sample_a; sample_b; sample_c]
  = (Raise (AssertionError "length must be power of two"), 0%nat) /\
  open sample_hash sample_to_bytes 1 0 [sample_a; sample_b; sample_c]
  = (Raise (AssertionError "length must be power of two"), 3%nat).
Proof.
  assert (Hpos : 0 < len [sample_a; sample_b; sample_c]) by reflexivity.
  destruct (length_guard_rejects sample_hash sample_to_bytes 0 0) as [Hw Hp].
  split; [exact Hpos |]. split.
  - exact (proj1 (Hw [sample_a; sample_b; sample_c] Hpos three_not_power_of_two)).
  - exact (proj2 (Hp [sample_a; sample_b; sample_c] Hpos three_not_power_of_two)).
Defined.

Lemma guard_spec_witness :
  0 <= 8 /\
  (power_of_two_guard 8 = true <-> 8 = 0 \/ exists k : nat, 8 = 2 ^ Z.of_nat k).
Proof. split; [lia | apply (guard_spec 8); lia]. Defined.

Lemma commit_cost_witness :
  length sample_elements = (2 ^ 2)%nat /\
  exists root,
    commit_ sample_hash 3 (map (leaf_of sample_hash sample_to_bytes) sample_elements)
    = (Ret root, 3%nat) /\
    commit sample_hash sample_to_bytes 3 sample_elements = (Ret root, 7%nat).
Proof.
  split; [reflexivity |].
  exact (commit_cost sample_hash sample_to_bytes 2 sample_elements 3
           eq_refl ltac:(lia)).
Defined.

Lemma open_cost_witness :
  length sample_elements = (2 ^ 2)%nat /\ 0 <= 2 < len sample_elements /\
  exists path,
    open_ sample_hash 3 2 (map (leaf_of sample_hash sample_to_bytes) sample_elements)
    = (Ret path, 1%nat) /\
    open sample_hash sample_to_bytes 3 2 sample_elements = (Ret path, 5%nat).
Proof.
  assert (H2 : 2 <= len sample_elements) by (vm_compute; discriminate).
  assert (Hi : 0 <= 2 < len sample_elements)
    by (vm_compute; split; discriminate || reflexivity).
  split; [reflexivity |]. split; [exact Hi |].
  exact (open_cost sample_hash sample_to_bytes 2 sample_elements 2 3
           eq_refl H2 Hi ltac:(lia)).
Defined.

Lemma opening_verifies_only_against_commit_witness :
  length sample_elements = (2 ^ 2)%nat /\ 0 <= 2 < len sample_elements /\
  exists root path e,
    fst (commit sample_hash sample_to_bytes 3 sample_elements) = Ret root /\
    fst (open sample_hash sample_to_bytes 3 2 sample_elements) = Ret path /\
    getitem sample_elements 2 = ret e /\
    fst (verify sample_hash sample_to_bytes 3 sample_b 2 path e)
    = Ret (bytes_eqb sample_b root) /\
    (bytes_eqb sample_b root = true <-> sample_b = root).
Proof.
  assert (H2 : 2 <= len sample_elements) by (vm_compute; discriminate).
  assert (Hi : 0 <= 2 < len sample_elements)
    by (vm_compute; split; discriminate || reflexivity).
  split; [reflexivity |]. split; [exact Hi |].
  exact (opening_verifies_only_against_commit sample_hash sample_to_bytes
           2 sample_elements 2 3 sample_b eq_refl H2 Hi ltac:(lia)).
Defined.

Lemma tampered_leaf_needs_collision_witness :
  fst (verify_ sample_hash 2
         (sample_hash (sample_hash (sample_a ++ sample_b)
                         ++ sample_hash (sample_c ++ sample_d)))
         2 [sample_d; sample_hash (sample_a ++ sample_b)] sample_c) = Ret true /\
  (sample_c = sample_c \/ collision sample_hash).
Proof.
  split; [reflexivity |].
  apply (proj1 (tampered_leaf_needs_collision sample_hash sample_to_bytes 2
                  (sample_hash (sample_hash (sample_a ++ sample_b)
                                  ++ sample_hash (sample_c ++ sample_d)))
                  2 [sample_d; sample_hash (sample_a ++ sample_b)]));
    reflexivity.
Defined.

Lemma opening_is_binding_witness :
  Forall2 (fun p p' : bytes => length p = length p')
    [sample_d; sample_hash (sample_a ++ sample_b)]
    [sample_d; sample_hash (sample_a ++ sample_b)] /\
  fst (verify sample_hash sample_to_bytes 2
         (sample_hash (sample_hash (sample_a ++ sample_b)
                         ++ sample_hash (sample_c ++ sample_d)))
         2 [sample_d; sample_hash (sample_a ++ sample_b)] sample_c) = Ret true /\
  ((sample_to_bytes sample_c = sample_to_bytes sample_c /\
    [sample_d; sample_hash (sample_a ++ sample_b)]
    = [sample_d; sample_hash (sample_a ++ sample_b)])
   \/ collision sample_hash).
Proof.
  assert (Hents : Forall2 (fun p p' : bytes => length p = length p')
                    [sample_d; sample_hash (sample_a ++ sample_b)]
                    [sample_d; sample_hash (sample_a ++ sample_b)])
    by (repeat constructor).
  split; [exact Hents |]. split; [reflexivity |].
  apply (proj2 (opening_is_binding sample_hash sample_to_bytes 2
                  (sample_hash (sample_hash (sample_a ++ sample_b)
                                  ++ sample_hash (sample_c ++ sample_d)))
                  2 [sample_d; sample_hash (sample_a ++ sample_b)]
                  [sample_d; sample_hash (sample_a ++ sample_b)] Hents));
    reflexivity.
Defined.

Lemma only_guard_exceptions_witness :
  (length [sample_a; sample_b; sample_c] < 4)%nat /\
  fst (commit_ sample_hash 4 [sample_a; sample_b; sample_c])
  = Raise (AssertionError "length must be power of two") /\
  power_of_two_guard (len [sample_a; sample_b; sample_c]) = false /\
  fst (open_ sample_hash 4 1 [sample_a; sample_b; sample_c]) <> OutOfFuel /\
  fst (commit_ sample_hash 4 []) = OutOfFuel.
Proof.
  assert (Hlt : (length [sample_a; sample_b; sample_c] < 4)%nat) by (simpl; lia).
  destruct (only_guard_exceptions sample_hash 4)
    as (Hnil & _ & Hopen & _ & Hcommit & _).
  split; [exact Hlt |]. split; [reflexivity |].
  split; [exact (proj2 (Hcommit [sample_a; sample_b; sample_c] _ eq_refl)) |].
  split; [exact (Hopen 1 [sample_a; sample_b; sample_c] Hlt) | exact (Hnil 4%nat)].
Defined.

Lemma finishes_on_every_input_witness :
  (length sample_elements < 5)%nat /\
  terminates (open_ sample_hash 5 9 sample_elements) /\
  (terminates (commit_ sample_hash 5 sample_elements) <-> sample_elements <> []).
Proof.
  assert (Hlt : (length sample_elements < 5)%nat) by (simpl; lia).
  destruct (finishes_on_every_input sample_hash 5) as (Ho & _ & Hc).
  split; [exact Hlt |]. split; [exact (Ho 9 sample_elements Hlt) |].
  exact (Hc sample_elements Hlt).
Defined.

Lemma path_entry_is_sibling_commit_witness :
  length sample_elements = (2 ^ 2)%nat /\ 0 <= 2 < len sample_elements /\
  exists path d,
    fst (open sample_hash sample_to_bytes 3 2 sample_elements) = Ret path /\
    length path = 2%nat /\
    nth_error path 1 = Some d /\
    fst (commit sample_hash sample_to_bytes 3 [sample_a; sample_b]) = Ret d.
Proof.
  assert (Hi : 0 <= 2 < len sample_elements)
    by (vm_compute; split; discriminate || reflexivity).
  split; [reflexivity |]. split; [exact Hi |].
  exact (proj2 (path_entry_is_sibling_commit sample_hash sample_to_bytes
                  2 2 3 1 ltac:(lia) ltac:(lia))
           sample_elements eq_refl Hi).
Defined.

Lemma sample_agree_except_2 (n : nat) :
  n <> Z.to_nat 2 ->
  nth_error sample_elements n
  = nth_error [sample_a; sample_b; sample_d; sample_d] n.
Proof.
  intros Hn. destruct n as [| [| [| n]]]; try reflexivity.
  now exfalso; apply Hn.
Qed.

Lemma path_ignores_opened_element_witness :
  length sample_elements = (2 ^ 2)%nat /\ 0 <= 2 < len sample_elements /\
  exists path,
    fst (open sample_hash sample_to_bytes 3 2 sample_elements) = Ret path /\
    fst (open sample_hash sample_to_bytes 3 2
           [sample_a; sample_b; sample_d; sample_d]) = Ret path.
Proof.
  assert (H2 : 2 <= len sample_elements) by (vm_compute; discriminate).
  assert (Hi : 0 <= 2 < len sample_elements)
    by (vm_compute; split; discriminate || reflexivity).
  split; [reflexivity |]. split; [exact Hi |].
  exact (proj2 (path_ignores_opened_element sample_hash sample_to_bytes
                  2 2 3 ltac:(lia))
           sample_elements [sample_a; sample_b; sample_d; sample_d]
           eq_refl eq_refl H2 Hi sample_agree_except_2).
Defined.
